(** * Contact management system: the record manager of [src/index.ts]

    A shallow embedding of the classes [Contact], [LocalStorageManager] and
    [ContactManager], and the properties of the directory they implement:
    e-mail uniqueness, the filtered view, the persistence boundary and the
    serialisation round trip.

    Conventions of the embedding.
    - A JavaScript string is the sequence of its code units.  The embedding
      covers the code units below 256 (Basic Latin and Latin-1 Supplement), so
      a string is a [string] of the standard library and a code unit an
      [ascii]; on this range [toLowerCase] acts code unit by code unit.
    - A [Date] is its time value, in milliseconds since the epoch.
    - Objects of class [Contact] live in a heap and arrays hold references:
      [contacts] and [filteredContacts] share the objects they list.
    - What the program reads from its environment is part of the world: the
      clock, [Math.random], the value of the page element [searchInput] and
      the state of the persistence port. *)

From Stdlib Require Import Bool List ZArith NArith Lia Ascii String.
Import ListNotations.

Open Scope list_scope.
Open Scope string_scope.

(* ================================================================= *)
(** ** Platform functions on strings *)

(** [WhiteSpace] and [LineTerminator] code units of ECMAScript below 256:
    TAB, LF, VT, FF, CR, SP and NBSP.  These are what [trim] strips. *)
Definition isWhiteSpace (c : ascii) : bool :=
  let n := N_of_ascii c in
  ((9 <=? n) && (n <=? 13) || (n =? 32) || (n =? 160))%N.

(** Upper-case letters below 256: A-Z, and the Latin-1 letters U+00C0-U+00DE
    except the multiplication sign U+00D7.  Each one lies 32 below its
    lower-case form. *)
Definition isUpper (c : ascii) : bool :=
  let n := N_of_ascii c in
  ((65 <=? n) && (n <=? 90) ||
   (192 <=? n) && (n <=? 214) ||
   (216 <=? n) && (n <=? 222))%N.

Definition toLowerChar (c : ascii) : ascii :=
  if isUpper c then ascii_of_N (N_of_ascii c + 32) else c.

(** [String.prototype.toLowerCase]. *)
Fixpoint toLowerCase (s : string) : string :=
  match s with
  | EmptyString => EmptyString
  | String c s' => String (toLowerChar c) (toLowerCase s')
  end.

(** [String.prototype.trimStart]. *)
Fixpoint trimStart (s : string) : string :=
  match s with
  | EmptyString => EmptyString
  | String c s' => if isWhiteSpace c then trimStart s' else s
  end.

(** [String.prototype.trimEnd]. *)
Fixpoint trimEnd (s : string) : string :=
  match s with
  | EmptyString => EmptyString
  | String c s' =>
      match trimEnd s' with
      | EmptyString => if isWhiteSpace c then EmptyString else String c EmptyString
      | r => String c r
      end
  end.

(** [String.prototype.trim]. *)
Definition trim (s : string) : string := trimEnd (trimStart s).

(** [s.startsWith(t)]. *)
Fixpoint startsWith (s t : string) {struct t} : bool :=
  match t, s with
  | EmptyString, _ => true
  | String _ _, EmptyString => false
  | String b t', String a s' => Ascii.eqb a b && startsWith s' t'
  end.

(** [s.includes(t)]: [t] occurs in [s] at some position. *)
Fixpoint includes (s t : string) : bool :=
  startsWith s t ||
  match s with
  | EmptyString => false
  | String _ s' => includes s' t
  end.

(** Truthiness of a string: every string but the empty one. *)
Definition truthy (s : string) : bool :=
  match s with
  | EmptyString => false
  | String _ _ => true
  end.

(** [Number.prototype.toString(36)] on an integer. *)
Definition digit36 (d : Z) : ascii :=
  if (d <? 10)%Z then ascii_of_N (Z.to_N (48 + d)) else ascii_of_N (Z.to_N (87 + d)).

Fixpoint digits36 (fuel : nat) (n : Z) (acc : string) : string :=
  match fuel with
  | O => acc
  | S fuel' =>
      let acc' := String (digit36 (n mod 36)) acc in
      if (n / 36 =? 0)%Z then acc' else digits36 fuel' (n / 36) acc'
  end.

Definition toString36 (n : Z) : string :=
  if (n <? 0)%Z
  then String "-"%char (digits36 (S (Z.to_nat (Z.log2 (- n)))) (- n) EmptyString)
  else digits36 (S (Z.to_nat (Z.log2 n))) n EmptyString.

(** A string with no white space in front. *)
Definition noLeadingSpace (s : string) : Prop :=
  match s with
  | EmptyString => True
  | String c _ => isWhiteSpace c = false
  end.

(** Substring, as a proposition: [t] occurs in [s]. *)
Definition Substring (t s : string) : Prop :=
  exists pre post, s = pre ++ t ++ post.

(* ================================================================= *)
(** ** Data model *)

(** A [Date], by its time value. *)
Definition Date := Z.

(** [new Date(value)] on a [Date]: a new object with the same time value. *)
Definition copyDate (value : Date) : Date := value.

(** [interface IContact]: the plain data of a contact.  An optional field is
    an [option]: [None] is [undefined]. *)
Record IContact := mkIContact {
  data_id : string;
  data_firstName : string;
  data_lastName : string;
  data_email : string;
  data_phone : option string;
  data_address : option string;
  data_createdAt : Date;
  data_updatedAt : Date
}.

(** The fields of an object of [class Contact]. *)
Record Contact := mkContact {
  id : string;
  firstName : string;
  lastName : string;
  email : string;
  phone : option string;
  address : option string;
  createdAt : Date;
  updatedAt : Date
}.

(** [Omit<IContact, 'id' | 'createdAt' | 'updatedAt'>]: the argument of
    [addContact]. *)
Record ContactData := mkContactData {
  new_firstName : string;
  new_lastName : string;
  new_email : string;
  new_phone : option string;
  new_address : option string
}.

(** [Partial<Omit<IContact, 'id' | 'createdAt' | 'updatedAt'>>]: the argument
    of [update].  The outer [option] says whether the object has the key; for
    [phone] and [address] a key that is present may hold [undefined] (as the
    form handler passes them), for the three required fields a key that is
    present holds a string. *)
Record ContactUpdate := mkContactUpdate {
  upd_firstName : option string;
  upd_lastName : option string;
  upd_email : option string;
  upd_phone : option (option string);
  upd_address : option (option string)
}.

(** *** The environment of a [Contact]: clock and random numbers

    [clock k] is the time shown at the [k]-th reading of the clock
    ([new Date()] or [Date.now()]), and [random k] the text
    [Math.random().toString(36).substr(2, 9)] of the [k]-th call of
    [Math.random]. *)
Record Oracle := mkOracle {
  clock : nat -> Z;
  clockReads : nat;
  random : nat -> string;
  randomDraws : nat
}.

Definition readClock (o : Oracle) : Z * Oracle :=
  (clock o (clockReads o),
   {| clock := clock o; clockReads := S (clockReads o);
      random := random o; randomDraws := randomDraws o |}).

Definition drawRandom (o : Oracle) : string * Oracle :=
  (random o (randomDraws o),
   {| clock := clock o; clockReads := clockReads o;
      random := random o; randomDraws := S (randomDraws o) |}).

(* ================================================================= *)
(** ** class Contact *)

(** [generateId]:
    [Math.random().toString(36).substr(2, 9) + Date.now().toString(36)]. *)
Definition generateId (o : Oracle) : string * Oracle :=
  let (r, o1) := drawRandom o in
  let (t, o2) := readClock o1 in
  (r ++ toString36 t, o2).

(** The constructor: [this.id = id || this.generateId()], the five fields,
    then two readings of the clock. *)
Definition newContact (firstName lastName email : string)
    (phone address : option string) (id : option string) (o : Oracle)
  : Contact * Oracle :=
  let (id', o1) :=
    match id with
    | Some i => if truthy i then (i, o) else generateId o
    | None => generateId o
    end in
  let (created, o2) := readClock o1 in
  let (updated, o3) := readClock o2 in
  ({| id := id'; firstName := firstName; lastName := lastName; email := email;
      phone := phone; address := address;
      createdAt := created; updatedAt := updated |}, o3).

(** The call of the constructor in [addContact]: no id is passed. *)
Definition construct (contactData : ContactData) (o : Oracle) : Contact * Oracle :=
  newContact (new_firstName contactData) (new_lastName contactData)
             (new_email contactData) (new_phone contactData)
             (new_address contactData) None o.

(** [getFullName]. *)
Definition getFullName (c : Contact) : string :=
  trim (firstName c ++ " " ++ lastName c).

(** [Object.assign(this, data)]: every key of [data] overwrites the field. *)
Definition assign (c : Contact) (data : ContactUpdate) : Contact :=
  {| id := id c;
     firstName := match upd_firstName data with Some v => v | None => firstName c end;
     lastName := match upd_lastName data with Some v => v | None => lastName c end;
     email := match upd_email data with Some v => v | None => email c end;
     phone := match upd_phone data with Some v => v | None => phone c end;
     address := match upd_address data with Some v => v | None => address c end;
     createdAt := createdAt c;
     updatedAt := updatedAt c |}.

(** [update]: [Object.assign(this, data); this.updatedAt = new Date()]. *)
Definition update (data : ContactUpdate) (c : Contact) (o : Oracle)
  : Contact * Oracle :=
  let c1 := assign c data in
  let (t, o1) := readClock o in
  ({| id := id c1; firstName := firstName c1; lastName := lastName c1;
      email := email c1; phone := phone c1; address := address c1;
      createdAt := createdAt c1; updatedAt := t |}, o1).

(** [toJSON]. *)
Definition toJSON (c : Contact) : IContact :=
  {| data_id := id c;
     data_firstName := firstName c;
     data_lastName := lastName c;
     data_email := email c;
     data_phone := phone c;
     data_address := address c;
     data_createdAt := createdAt c;
     data_updatedAt := updatedAt c |}.

(** [fromJSON]: the constructor with [data.id], then both time stamps
    replaced by copies of the ones in [data]. *)
Definition fromJSON (data : IContact) (o : Oracle) : Contact * Oracle :=
  let (contact, o1) :=
    newContact (data_firstName data) (data_lastName data) (data_email data)
               (data_phone data) (data_address data) (Some (data_id data)) o in
  ({| id := id contact; firstName := firstName contact;
      lastName := lastName contact; email := email contact;
      phone := phone contact; address := address contact;
      createdAt := copyDate (data_createdAt data);
      updatedAt := copyDate (data_updatedAt data) |}, o1).

(* ================================================================= *)
(** ** Errors and the persistence port *)

(** [new Error(message)]. *)
Inductive Error := mkError (message : string).

Definition DuplicateEmail : Error := mkError "A contact with this email already exists".
Definition NotFound : Error := mkError "Contact not found".
Definition PersistenceWriteFailure : Error := mkError "Failed to save contacts".

(** The outcome of a call: a value, or an exception thrown. *)
Inductive Result (A : Type) :=
| Ok (a : A)
| Throw (e : Error).
Arguments Ok {A} a.
Arguments Throw {A} e.

(** [interface IContactStorage], over the state [S] of the store behind it.
    [save] reads the contacts it is given; [load] builds new contacts, so it
    reads the clock and [Math.random]. *)
Class IContactStorage (S : Type) := {
  save : list Contact -> S -> Result unit * S;
  load : S -> Oracle -> Result (list Contact) * S * Oracle;
  clear : S -> Result unit * S
}.

(** *** class LocalStorageManager

    The browser's [localStorage], for the one key the program uses.  The text
    stored is modelled by the array it encodes: [JSON.stringify] writes a
    time stamp as its ISO text, to the millisecond, and leaves out a field
    that is [undefined]; [JSON.parse] and [new Date] read both back.
    [accepts] says which writes the browser takes; [setItem] throws on the
    others (quota exceeded, storage disabled). *)
Inductive StoredItem :=
| Missing
| Malformed
| Stored (records : list IContact).

Record LocalStorage := mkLocalStorage {
  item : StoredItem;
  accepts : list IContact -> bool
}.

(** [parsed.map(contactData => Contact.fromJSON(contactData))]. *)
Fixpoint mapFromJSON (parsed : list IContact) (o : Oracle) : list Contact * Oracle :=
  match parsed with
  | [] => ([], o)
  | data :: rest =>
      let (c, o1) := fromJSON data o in
      let (cs, o2) := mapFromJSON rest o1 in
      (c :: cs, o2)
  end.

(** [save]: any failure of [setItem] becomes [Error('Failed to save contacts')]. *)
Definition LocalStorageManager_save (contacts : list Contact) (ls : LocalStorage)
  : Result unit * LocalStorage :=
  let data := map toJSON contacts in
  if accepts ls data
  then (Ok tt, {| item := Stored data; accepts := accepts ls |})
  else (Throw PersistenceWriteFailure, ls).

(** [load]: nothing stored, or text that does not parse, gives []. *)
Definition LocalStorageManager_load (ls : LocalStorage) (o : Oracle)
  : Result (list Contact) * LocalStorage * Oracle :=
  match item ls with
  | Missing => (Ok [], ls, o)
  | Malformed => (Ok [], ls, o)
  | Stored parsed => let (cs, o1) := mapFromJSON parsed o in (Ok cs, ls, o1)
  end.

(** [clear]. *)
Definition LocalStorageManager_clear (ls : LocalStorage) : Result unit * LocalStorage :=
  (Ok tt, {| item := Missing; accepts := accepts ls |}).

#[export] Instance LocalStorageManager : IContactStorage LocalStorage := {
  save := LocalStorageManager_save;
  load := LocalStorageManager_load;
  clear := LocalStorageManager_clear
}.

(* ================================================================= *)
(** ** The world of a ContactManager *)

(** A reference to an object of class [Contact]. *)
Definition Loc := nat.

(** The calls made on the persistence port, in the order they were made, the
    last one first.  This is a log kept by the embedding, not a field of the
    program. *)
Inductive PortCall :=
| CallSave (cs : list Contact)
| CallLoad
| CallClear.

(** The heap of [Contact] objects ([next] is the first unused reference), the
    three fields of the manager, the page element [searchInput] ([None] when
    the page has no such element, else its [value]), and the oracle. *)
Record World (S : Type) := mkWorld {
  heap : Loc -> Contact;
  next : Loc;
  contacts : list Loc;
  filteredContacts : list Loc;
  storage : S;
  searchInput : option string;
  oracle : Oracle;
  portCalls : list PortCall
}.
Arguments mkWorld {S}.
Arguments heap {S}.
Arguments next {S}.
Arguments contacts {S}.
Arguments filteredContacts {S}.
Arguments storage {S}.
Arguments searchInput {S}.
Arguments oracle {S}.
Arguments portCalls {S}.

(** Store [c] at reference [l]. *)
Definition store (h : Loc -> Contact) (l : Loc) (c : Contact) : Loc -> Contact :=
  fun l' => if Nat.eqb l' l then c else h l'.

(** The first index at which [p] holds: [Array.prototype.findIndex], with
    [None] for -1. *)
Fixpoint findIndex {A : Type} (p : A -> bool) (l : list A) : option nat :=
  match l with
  | [] => None
  | x :: l' => if p x then Some O else option_map S (findIndex p l')
  end.

(** [splice(index, 1)]: the array without the element at [index]. *)
Fixpoint splice1 {A : Type} (index : nat) (l : list A) {struct l} : list A :=
  match l, index with
  | [], _ => []
  | _ :: l', O => l'
  | x :: l', S i => x :: splice1 i l'
  end.

Section ContactManager.

Context {S : Type} {port : IContactStorage S}.

(** Computations of the manager: they change the world and return a value or
    throw.  What was changed before an exception stays changed. *)
Definition M (A : Type) : Type := World S -> Result A * World S.

Definition ret {A : Type} (a : A) : M A := fun w => (Ok a, w).

Definition throw {A : Type} (e : Error) : M A := fun w => (Throw e, w).

Definition bind {A B : Type} (m : M A) (k : A -> M B) : M B :=
  fun w =>
    match m w with
    | (Ok a, w') => k a w'
    | (Throw e, w') => (Throw e, w')
    end.

Definition gets {A : Type} (f : World S -> A) : M A := fun w => (Ok (f w), w).

Definition modify (f : World S -> World S) : M unit := fun w => (Ok tt, f w).

Notation "x <- m ;; k" := (bind m (fun x => k))
  (at level 61, m at next level, right associativity).
Notation "m ;; k" := (bind m (fun _ => k))
  (at level 61, right associativity).

(** *** Field updates *)

Definition setContacts (cs : list Loc) (w : World S) : World S :=
  {| heap := heap w; next := next w; contacts := cs;
     filteredContacts := filteredContacts w; storage := storage w;
     searchInput := searchInput w; oracle := oracle w; portCalls := portCalls w |}.

Definition setFilteredContacts (cs : list Loc) (w : World S) : World S :=
  {| heap := heap w; next := next w; contacts := contacts w;
     filteredContacts := cs; storage := storage w;
     searchInput := searchInput w; oracle := oracle w; portCalls := portCalls w |}.

Definition setStorage (s : S) (w : World S) : World S :=
  {| heap := heap w; next := next w; contacts := contacts w;
     filteredContacts := filteredContacts w; storage := s;
     searchInput := searchInput w; oracle := oracle w; portCalls := portCalls w |}.

Definition setOracle (o : Oracle) (w : World S) : World S :=
  {| heap := heap w; next := next w; contacts := contacts w;
     filteredContacts := filteredContacts w; storage := storage w;
     searchInput := searchInput w; oracle := o; portCalls := portCalls w |}.

Definition setHeap (h : Loc -> Contact) (w : World S) : World S :=
  {| heap := h; next := next w; contacts := contacts w;
     filteredContacts := filteredContacts w; storage := storage w;
     searchInput := searchInput w; oracle := oracle w; portCalls := portCalls w |}.

Definition logCall (c : PortCall) (w : World S) : World S :=
  {| heap := heap w; next := next w; contacts := contacts w;
     filteredContacts := filteredContacts w; storage := storage w;
     searchInput := searchInput w; oracle := oracle w;
     portCalls := c :: portCalls w |}.

(** A new object holding [c]. *)
Definition alloc (c : Contact) : M Loc :=
  fun w =>
    (Ok (next w),
     {| heap := store (heap w) (next w) c; next := Datatypes.S (next w);
        contacts := contacts w; filteredContacts := filteredContacts w;
        storage := storage w; searchInput := searchInput w;
        oracle := oracle w; portCalls := portCalls w |}).

Fixpoint allocAll (cs : list Contact) : M (list Loc) :=
  match cs with
  | [] => ret []
  | c :: rest =>
      l <- alloc c ;;
      ls <- allocAll rest ;;
      ret (l :: ls)
  end.

(** Run a method of class [Contact] that reads the clock or [Math.random]. *)
Definition withOracle {A : Type} (f : Oracle -> A * Oracle) : M A :=
  fun w => let (a, o) := f (oracle w) in (Ok a, setOracle o w).

(** The contacts an array of references lists. *)
Definition deref (w : World S) (ls : list Loc) : list Contact := map (heap w) ls.

(* ================================================================= *)
(** ** class ContactManager *)

(** [loadContacts]. *)
Definition loadContacts : M unit :=
  fun w =>
    match load (storage w) (oracle w) with
    | (Ok cs, s, o) =>
        (ls <- allocAll cs ;;
         modify (setContacts ls) ;;
         modify (setFilteredContacts ls))
          (logCall CallLoad (setOracle o (setStorage s w)))
    | (Throw e, s, o) => (Throw e, logCall CallLoad (setOracle o (setStorage s w)))
    end.

(** The constructor: the two arrays start empty, then [loadContacts]. *)
Definition newContactManager (st : S) : M unit :=
  modify (setContacts []) ;;
  modify (setFilteredContacts []) ;;
  modify (setStorage st) ;;
  loadContacts.

(** [saveContacts]. *)
Definition saveContacts : M unit :=
  fun w =>
    let cs := deref w (contacts w) in
    let (r, s) := save cs (storage w) in
    (r, logCall (CallSave cs) (setStorage s w)).

(** [findById]. *)
Definition findById (i : string) (w : World S) : option Loc :=
  find (fun contact => id (heap w contact) =? i) (contacts w).

(** [findByEmail]. *)
Definition findByEmail (e : string) (w : World S) : option Loc :=
  find (fun contact => toLowerCase (email (heap w contact)) =? toLowerCase e)
       (contacts w).

(** [getAllContacts] and [getFilteredContacts]: copies of the arrays. *)
Definition getAllContacts : M (list Loc) := gets contacts.
Definition getFilteredContacts : M (list Loc) := gets filteredContacts.

(** The predicate of the filter in [searchContacts]. *)
Definition matchesTerm (searchTerm : string) (c : Contact) : bool :=
  includes (toLowerCase (firstName c)) searchTerm ||
  includes (toLowerCase (lastName c)) searchTerm ||
  includes (toLowerCase (email c)) searchTerm ||
  includes (toLowerCase (getFullName c)) searchTerm.

(** [searchContacts]. *)
Definition searchContacts (query : string) : M (list Loc) :=
  if negb (truthy (trim query)) then
    cs <- gets contacts ;;
    modify (setFilteredContacts cs) ;;
    gets filteredContacts
  else
    let searchTerm := trim (toLowerCase query) in
    found <- gets (fun w => filter (fun contact => matchesTerm searchTerm (heap w contact))
                                   (contacts w)) ;;
    modify (setFilteredContacts found) ;;
    gets filteredContacts.

(** [applyCurrentFilter]: the query is read from the page. *)
Definition applyCurrentFilter : M unit :=
  input <- gets searchInput ;;
  match input with
  | Some value =>
      if truthy (trim value) then
        searchContacts value ;; ret tt
      else
        cs <- gets contacts ;; modify (setFilteredContacts cs)
  | None => cs <- gets contacts ;; modify (setFilteredContacts cs)
  end.

(** [addContact]. *)
Definition addContact (contactData : ContactData) : M Loc :=
  existing <- gets (findByEmail (new_email contactData)) ;;
  match existing with
  | Some _ => throw DuplicateEmail
  | None =>
      c <- withOracle (newContact (new_firstName contactData)
                                  (new_lastName contactData)
                                  (new_email contactData)
                                  (new_phone contactData)
                                  (new_address contactData) None) ;;
      contact <- alloc c ;;
      cs <- gets contacts ;;
      modify (setContacts (cs ++ [contact])%list) ;;
      saveContacts ;;
      applyCurrentFilter ;;
      ret contact
  end.

(** The check of [updateContact]:
    [updateData.email && updateData.email !== contact.email], then the look-up
    by e-mail and the comparison of ids. *)
Definition validateEmail (i : string) (contact : Loc) (updateData : ContactUpdate)
  : M unit :=
  match upd_email updateData with
  | Some e =>
      current <- gets (fun w => email (heap w contact)) ;;
      if truthy e && negb (e =? current) then
        existingContact <- gets (findByEmail e) ;;
        match existingContact with
        | Some existing =>
            existingId <- gets (fun w => id (heap w existing)) ;;
            if negb (existingId =? i) then throw DuplicateEmail else ret tt
        | None => ret tt
        end
      else ret tt
  | None => ret tt
  end.

(** [contact.update(updateData)] on the object behind a reference. *)
Definition updateObject (contact : Loc) (updateData : ContactUpdate) : M unit :=
  c <- gets (fun w => heap w contact) ;;
  c' <- withOracle (update updateData c) ;;
  h <- gets heap ;;
  modify (setHeap (store h contact c')).

(** [updateContact]. *)
Definition updateContact (i : string) (updateData : ContactUpdate) : M Loc :=
  found <- gets (findById i) ;;
  match found with
  | None => throw NotFound
  | Some contact =>
      validateEmail i contact updateData ;;
      updateObject contact updateData ;;
      saveContacts ;;
      applyCurrentFilter ;;
      ret contact
  end.

(** [deleteContact]. *)
Definition deleteContact (i : string) : M bool :=
  index <- gets (fun w => findIndex (fun contact => id (heap w contact) =? i)
                                    (contacts w)) ;;
  match index with
  | None => ret false
  | Some k =>
      cs <- gets contacts ;;
      modify (setContacts (splice1 k cs)) ;;
      saveContacts ;;
      applyCurrentFilter ;;
      ret true
  end.

(** [getContactCount] and [getFilteredContactCount]. *)
Definition getContactCount : M nat := gets (fun w => List.length (contacts w)).
Definition getFilteredContactCount : M nat :=
  gets (fun w => List.length (filteredContacts w)).

(** [clearAllContacts]. *)
Definition clearAllContacts : M unit :=
  modify (setContacts []) ;;
  modify (setFilteredContacts []) ;;
  fun w =>
    let (r, s) := clear (storage w) in
    (r, logCall CallClear (setStorage s w)).

(** *** The steps of a mutation

    [addContact], [updateContact] and [deleteContact] change the canonical
    collection in memory and then end alike: save, apply the filter again,
    return.  The worlds after the change in memory, before the save: *)

(** After [this.contacts.push(contact)]. *)
Definition pushed (contactData : ContactData) (w : World S) : World S :=
  let (c, o) := construct contactData (oracle w) in
  {| heap := store (heap w) (next w) c; next := Datatypes.S (next w);
     contacts := (contacts w ++ [next w])%list;
     filteredContacts := filteredContacts w; storage := storage w;
     searchInput := searchInput w; oracle := o; portCalls := portCalls w |}.

(** After [contact.update(updateData)]. *)
Definition updated (contact : Loc) (updateData : ContactUpdate) (w : World S)
  : World S :=
  let (c, o) := update updateData (heap w contact) (oracle w) in
  {| heap := store (heap w) contact c; next := next w; contacts := contacts w;
     filteredContacts := filteredContacts w; storage := storage w;
     searchInput := searchInput w; oracle := o; portCalls := portCalls w |}.

(** After [this.contacts.splice(index, 1)]. *)
Definition spliced (index : nat) (w : World S) : World S :=
  setContacts (splice1 index (contacts w)) w.

(** The common end: [this.saveContacts(); this.applyCurrentFilter(); return a]. *)
Definition finish {A : Type} (a : A) : M A :=
  saveContacts ;; applyCurrentFilter ;; ret a.

End ContactManager.

Arguments M S : clear implicits.

Notation "x <- m ;; k" := (bind m (fun x => k))
  (at level 61, m at next level, right associativity).
Notation "m ;; k" := (bind m (fun _ => k))
  (at level 61, right associativity).

(* ================================================================= *)
(** ** The vocabulary of the specification *)

(** Two e-mail addresses are the same when compared without regard to case. *)
Definition SameEmail (e1 e2 : string) : Prop := toLowerCase e1 = toLowerCase e2.

(** No two records of a collection have the same e-mail address, compared
    without regard to case. *)
Definition EmailsUnique (cs : list Contact) : Prop :=
  NoDup (map (fun c => toLowerCase (email c)) cs).

(** No two records of a collection have the same id. *)
Definition IdsUnique (cs : list Contact) : Prop := NoDup (map id cs).

(** No record with an id other than [i] holds the e-mail address [e]. *)
Definition HeldOnlyBy {S : Type} (w : World S) (e i : string) : Prop :=
  forall l, In l (contacts w) -> SameEmail (email (heap w l)) e -> id (heap w l) = i.

(** The records: what the class [Contact] builds, by its constructor, by
    [fromJSON], and by [update] on a record. *)
Inductive Built : Contact -> Prop :=
| Built_new f l e p a i o : Built (fst (newContact f l e p a i o))
| Built_fromJSON data o : Built (fst (fromJSON data o))
| Built_update data c o : Built c -> Built (fst (update data c o)).

(** [s] contains [q] as a case-insensitive substring. *)
Definition ContainsCI (q s : string) : Prop :=
  Substring (toLowerCase q) (toLowerCase s).

(** A record matches a query: its first name, last name, e-mail address or
    full name contains the query as a case-insensitive substring. *)
Definition MatchesQuery (q : string) (c : Contact) : Prop :=
  ContainsCI q (firstName c) \/ ContainsCI q (lastName c) \/
  ContainsCI q (email c) \/ ContainsCI q (getFullName c).

(** Every reference of the canonical collection is to an object that was
    built: the next object built is a new one. *)
Definition Allocated {S : Type} (w : World S) : Prop :=
  forall l, In l (contacts w) -> l < next w.

(** The store behind the port, in state [s], refuses every save with the
    error [e]; or takes every save. *)
Definition Rejects {S : Type} {port : IContactStorage S} (s : S) (e : Error) : Prop :=
  forall cs, fst (save cs s) = Throw e.

Definition Accepts {S : Type} {port : IContactStorage S} (s : S) : Prop :=
  forall cs, fst (save cs s) = Ok tt.

(** [Restricted P l l']: [l'] is [l] restricted to the elements that satisfy
    [P], in the order of [l]. *)
Inductive Restricted {A : Type} (P : A -> Prop) : list A -> list A -> Prop :=
| Restricted_nil : Restricted P [] []
| Restricted_keep x l l' : P x -> Restricted P l l' -> Restricted P (x :: l) (x :: l')
| Restricted_drop x l l' : ~ P x -> Restricted P l l' -> Restricted P (x :: l) l'.

(** The filtered view of [w'] is the canonical collection of [w'] restricted
    to the records that match [q]. *)
Definition ViewRestrictedTo {S : Type} (q : string) (w' : World S) : Prop :=
  Restricted (fun l => MatchesQuery q (heap w' l)) (contacts w') (filteredContacts w').

(** The text in the search box of the page; none when the page has no box. *)
Definition pageQuery {S : Type} (w : World S) : string :=
  match searchInput w with
  | Some value => value
  | None => EmptyString
  end.

(** The filtered view of [w] follows the query [q]: the whole canonical
    collection when [q] is empty or white space, else the records that match
    [q] trimmed. *)
Definition ViewFollows {S : Type} (q : string) (w : World S) : Prop :=
  if truthy (trim q)
  then ViewRestrictedTo (trim q) w
  else filteredContacts w = contacts w.

(** A mutation that returned: [addContact] or [updateContact] returned a
    contact, or [deleteContact] returned true. *)
Inductive Mutation {S : Type} {port : IContactStorage S} (w w' : World S) : Prop :=
| Mutation_add (data : ContactData) (l : Loc) :
    addContact data w = (Ok l, w') -> Mutation w w'
| Mutation_update (i : string) (u : ContactUpdate) (l : Loc) :
    updateContact i u w = (Ok l, w') -> Mutation w w'
| Mutation_delete (i : string) :
    deleteContact i w = (Ok true, w') -> Mutation w w'.

(** The filtered view after [searchContacts], with the query taken as it was
    typed: the whole canonical collection for a query that is empty or white
    space, else the records that contain the query itself. *)
Definition SearchKeepsQueryAsTyped {S : Type} {port : IContactStorage S}
    (w : World S) (q : string) : Prop :=
  if truthy (trim q)
  then ViewRestrictedTo q (snd (searchContacts q w))
  else filteredContacts (snd (searchContacts q w)) = contacts w.

(** The manager remembers the query of the last [searchContacts]: when
    [addContact] returns after a search for a query [q] that is not empty,
    the new record is in the filtered view exactly when it matches [q], and
    the filtered view is the canonical collection restricted to the
    matches. *)
Definition AddReappliesLastSearch {S : Type} {port : IContactStorage S}
    (w : World S) (q : string) (data : ContactData) : Prop :=
  forall l w',
    addContact data (snd (searchContacts q w)) = (Ok l, w') ->
    truthy q = true ->
    (In l (filteredContacts w') <-> MatchesQuery q (heap w' l)) /\
    ViewRestrictedTo q w'.


(* ================================================================= *)
(** ** class ContactUIManager: the handlers

    The handlers that call the manager, with the fields [currentEditingId]
    and [deleteContactId], whether the delete dialog is shown, and the
    message [showMessage] shows.  The page is taken to have the elements the
    constructor asks for and the container of the messages.  What a handler
    only draws (the list, the count, the labels of the buttons) is left
    out, and so is the content of the form after [reset]. *)

Inductive MessageType := MsgSuccess | MsgError.

Record UIState := mkUIState {
  currentEditingId : option string;
  deleteContactId : option string;
  deleteModalShown : bool;
  shownMessage : option (string * MessageType)
}.

(** What [new FormData(this.form)] gives for the five fields. *)
Record FormValues := mkFormValues {
  form_firstName : string;
  form_lastName : string;
  form_email : string;
  form_phone : string;
  form_address : string
}.

(** [value || undefined]. *)
Definition orUndefined (value : string) : option string :=
  if truthy value then Some value else None.

(** The object [contactData] of [handleFormSubmit]. *)
Definition readForm (form : FormValues) : ContactData :=
  {| new_firstName := form_firstName form;
     new_lastName := form_lastName form;
     new_email := form_email form;
     new_phone := orUndefined (form_phone form);
     new_address := orUndefined (form_address form) |}.

(** The same object, passed as [updateData]: it has all five keys. *)
Definition asUpdate (contactData : ContactData) : ContactUpdate :=
  {| upd_firstName := Some (new_firstName contactData);
     upd_lastName := Some (new_lastName contactData);
     upd_email := Some (new_email contactData);
     upd_phone := Some (new_phone contactData);
     upd_address := Some (new_address contactData) |}.

(** [showMessage]. *)
Definition showMessage (text : string) (type : MessageType) (ui : UIState) : UIState :=
  {| currentEditingId := currentEditingId ui;
     deleteContactId := deleteContactId ui;
     deleteModalShown := deleteModalShown ui;
     shownMessage := Some (text, type) |}.

(** [resetForm]: [this.currentEditingId = null]. *)
Definition resetForm (ui : UIState) : UIState :=
  {| currentEditingId := None;
     deleteContactId := deleteContactId ui;
     deleteModalShown := deleteModalShown ui;
     shownMessage := shownMessage ui |}.

(** [handleDeleteContact]. *)
Definition handleDeleteContact (i : string) (ui : UIState) : UIState :=
  {| currentEditingId := currentEditingId ui;
     deleteContactId := Some i;
     deleteModalShown := true;
     shownMessage := shownMessage ui |}.

(** [handleCancelDelete]. *)
Definition handleCancelDelete (ui : UIState) : UIState :=
  {| currentEditingId := currentEditingId ui;
     deleteContactId := None;
     deleteModalShown := false;
     shownMessage := shownMessage ui |}.

(** [error.message]. *)
Definition errorMessage (e : Error) : string :=
  match e with mkError message => message end.

(** A field that holds an id or null, as a condition. *)
Definition pendingId (field : option string) : option string :=
  match field with
  | Some i => if truthy i then Some i else None
  | None => None
  end.

Section ContactUIManager.

Context {S : Type} {port : IContactStorage S}.

Definition setSearchInput (input : option string) (w : World S) : World S :=
  {| heap := heap w; next := next w; contacts := contacts w;
     filteredContacts := filteredContacts w; storage := storage w;
     searchInput := input; oracle := oracle w; portCalls := portCalls w |}.

(** [handleFormSubmit]: an exception of the manager is caught and shown. *)
Definition handleFormSubmit (form : FormValues) (ui : UIState) (w : World S)
  : UIState * World S :=
  let contactData := readForm form in
  match pendingId (currentEditingId ui) with
  | Some i =>
      match updateContact i (asUpdate contactData) w with
      | (Ok _, w') =>
          (resetForm (showMessage "Contact updated successfully!" MsgSuccess ui), w')
      | (Throw e, w') => (showMessage (errorMessage e) MsgError ui, w')
      end
  | None =>
      match addContact contactData w with
      | (Ok _, w') =>
          (resetForm (showMessage "Contact added successfully!" MsgSuccess ui), w')
      | (Throw e, w') => (showMessage (errorMessage e) MsgError ui, w')
      end
  end.

(** [handleEditContact]. *)
Definition handleEditContact (i : string) (ui : UIState) (w : World S) : UIState :=
  match findById i w with
  | None => showMessage "Contact not found" MsgError ui
  | Some _ =>
      {| currentEditingId := Some i;
         deleteContactId := deleteContactId ui;
         deleteModalShown := deleteModalShown ui;
         shownMessage := shownMessage ui |}
  end.

(** [handleConfirmDelete]: an exception of the manager is not caught, and
    then the dialog is not closed. *)
Definition handleConfirmDelete (ui : UIState) (w : World S)
  : Result unit * UIState * World S :=
  match pendingId (deleteContactId ui) with
  | Some i =>
      match deleteContact i w with
      | (Ok true, w') =>
          (Ok tt,
           handleCancelDelete
             (showMessage "Contact deleted successfully!" MsgSuccess ui), w')
      | (Ok false, w') =>
          (Ok tt,
           handleCancelDelete (showMessage "Failed to delete contact" MsgError ui), w')
      | (Throw e, w') => (Throw e, ui, w')
      end
  | None => (Ok tt, handleCancelDelete ui, w)
  end.

(** [handleSearch]: the query is the text of the search box. *)
Definition handleSearch (w : World S) : World S :=
  snd (searchContacts (pageQuery w) w).

(** [handleClearSearch]: the search box is emptied first. *)
Definition handleClearSearch (w : World S) : World S :=
  snd (searchContacts EmptyString (setSearchInput (Some EmptyString) w)).

End ContactUIManager.

(* ================================================================= *)
(** ** Sample worlds *)

(** What an unused cell of the heap holds. *)
Definition blank : Contact :=
  {| id := EmptyString; firstName := EmptyString; lastName := EmptyString;
     email := EmptyString; phone := None; address := None;
     createdAt := 0%Z; updatedAt := 0%Z |}.

(** A clock that advances by a millisecond at every reading. *)
Definition sampleOracle : Oracle :=
  {| clock := fun k => (1700000000000 + Z.of_nat k)%Z; clockReads := 0;
     random := fun _ => "k3j9x2m1q"; randomDraws := 0 |}.

(** A browser with nothing stored, that takes every write ([true]) or none. *)
Definition browser (writable : bool) : LocalStorage :=
  {| item := Missing; accepts := fun _ => writable |}.

(** The world before the manager is built. *)
Definition start (input : option string) (ls : LocalStorage) : World LocalStorage :=
  {| heap := fun _ => blank; next := 0; contacts := []; filteredContacts := [];
     storage := ls; searchInput := input; oracle := sampleOracle; portCalls := [] |}.

(** The world after [new ContactManager(new LocalStorageManager())]. *)
Definition fresh (input : option string) (ls : LocalStorage) : World LocalStorage :=
  snd (newContactManager ls (start input ls)).

Definition ada : ContactData :=
  {| new_firstName := "Ada"; new_lastName := "Lovelace"; new_email := "ada@x.com";
     new_phone := None; new_address := None |}.

Definition al : ContactData :=
  {| new_firstName := "Al"; new_lastName := "Turing"; new_email := "ADA@X.COM";
     new_phone := None; new_address := None |}.

Definition bob : ContactData :=
  {| new_firstName := "Bob"; new_lastName := "Stone"; new_email := "bob@x.com";
     new_phone := Some "555-0100"; new_address := None |}.

(** An update that has the key [email] only. *)
Definition onlyEmail (e : string) : ContactUpdate :=
  {| upd_firstName := None; upd_lastName := None; upd_email := Some e;
     upd_phone := None; upd_address := None |}.

(** The directory with Ada in it, and with Ada and Bob. *)
Definition withAda (input : option string) (ls : LocalStorage) : World LocalStorage :=
  snd (addContact ada (fresh input ls)).

Definition withAdaBob (input : option string) (ls : LocalStorage) : World LocalStorage :=
  snd (addContact bob (withAda input ls)).

(** Ada's e-mail address removed: [updateContact(id, {email: ''})]. *)
Definition withAdaCleared (input : option string) (ls : LocalStorage)
  : World LocalStorage :=
  let w := withAdaBob input ls in
  snd (updateContact (id (heap w 0)) (onlyEmail EmptyString) w).

(** The same directory once the browser takes no more writes. *)
Definition offline (w : World LocalStorage) : World LocalStorage :=
  setStorage {| item := item (storage w); accepts := fun _ => false |} w.

(** A page on which no handler has run yet. *)
Definition idle : UIState :=
  {| currentEditingId := None; deleteContactId := None;
     deleteModalShown := false; shownMessage := None |}.

(** The form filled in for Al, with Ada's e-mail address in capitals and the
    fields for phone and address left blank. *)
Definition alForm : FormValues :=
  {| form_firstName := "Al"; form_lastName := "Turing"; form_email := "ADA@X.COM";
     form_phone := EmptyString; form_address := EmptyString |}.

(** The form filled in for Grace, the address left blank. *)
Definition graceForm : FormValues :=
  {| form_firstName := "Grace"; form_lastName := "Hopper";
     form_email := "grace@x.com"; form_phone := "555-0199";
     form_address := EmptyString |}.

(** Bob's record as the form shows it, the phone number deleted. *)
Definition bobForm : FormValues :=
  {| form_firstName := "Bob"; form_lastName := "Stone"; form_email := "bob@x.com";
     form_phone := EmptyString; form_address := EmptyString |}.


(* ================================================================= *)
(** ** Facts about the string functions *)

Lemma truthy_false (s : string) : truthy s = false <-> s = EmptyString.
Proof. destruct s; simpl; split; congruence. Qed.

Lemma truthy_true (s : string) : truthy s = true <-> s <> EmptyString.
Proof. destruct s; simpl; split; congruence. Qed.

Lemma startsWith_spec (s t : string) :
  startsWith s t = true <-> exists post, s = t ++ post.
Proof.
  revert s; induction t as [|b t IH]; intros s; simpl.
  - split; [intros _; now exists s | reflexivity].
  - destruct s as [|a s].
    + split; [discriminate | intros [post H]; discriminate].
    + rewrite andb_true_iff, Ascii.eqb_eq, IH. split.
      * intros [-> [post ->]]. now exists post.
      * intros [post H]. injection H as -> ->. split; [reflexivity | now exists post].
Qed.

Lemma includes_spec (s t : string) : includes s t = true <-> Substring t s.
Proof.
  unfold Substring. induction s as [|a s IH].
  - simpl. rewrite orb_false_r, startsWith_spec. split.
    + intros [post H]. now exists EmptyString, post.
    + intros [pre [post H]]. destruct pre; simpl in H.
      * now exists post.
      * discriminate.
  - cbn [includes]. rewrite orb_true_iff, startsWith_spec, IH. split.
    + intros [[post H] | [pre [post H]]].
      * now exists EmptyString, post.
      * exists (String a pre), post. simpl. now rewrite H.
    + intros [pre [post H]]. destruct pre as [|b pre]; simpl in H.
      * left. now exists post.
      * right. injection H as _ H. now exists pre, post.
Qed.

Lemma isWhiteSpace_toLowerChar (c : ascii) :
  isWhiteSpace (toLowerChar c) = isWhiteSpace c.
Proof. destruct c as [[] [] [] [] [] [] [] []]; reflexivity. Qed.

Lemma toLowerChar_idem (c : ascii) : toLowerChar (toLowerChar c) = toLowerChar c.
Proof. destruct c as [[] [] [] [] [] [] [] []]; reflexivity. Qed.

Lemma toLowerCase_idem (s : string) : toLowerCase (toLowerCase s) = toLowerCase s.
Proof. induction s; simpl; [reflexivity | now rewrite toLowerChar_idem, IHs]. Qed.

Lemma toLowerCase_empty (s : string) : toLowerCase s = EmptyString <-> s = EmptyString.
Proof. destruct s; simpl; split; congruence. Qed.

Lemma trimStart_toLowerCase (s : string) :
  trimStart (toLowerCase s) = toLowerCase (trimStart s).
Proof.
  induction s as [|c s IH]; simpl; [reflexivity|].
  rewrite isWhiteSpace_toLowerChar. now destruct (isWhiteSpace c).
Qed.

Lemma trimEnd_toLowerCase (s : string) :
  trimEnd (toLowerCase s) = toLowerCase (trimEnd s).
Proof.
  induction s as [|c s IH]; simpl; [reflexivity|].
  rewrite IH, isWhiteSpace_toLowerChar.
  destruct (trimEnd s); simpl; [now destruct (isWhiteSpace c) | reflexivity].
Qed.

(** Lower-casing and trimming commute: no letter is white space. *)
Lemma trim_toLowerCase (s : string) : trim (toLowerCase s) = toLowerCase (trim s).
Proof. unfold trim. now rewrite trimStart_toLowerCase, trimEnd_toLowerCase. Qed.

Lemma trimStart_noLeadingSpace (s : string) : noLeadingSpace (trimStart s).
Proof.
  induction s as [|c s IH]; simpl; [exact I|].
  destruct (isWhiteSpace c) eqn:E; [exact IH | exact E].
Qed.

Lemma trimStart_fixed (s : string) : noLeadingSpace s -> trimStart s = s.
Proof. destruct s as [|c s]; simpl; [reflexivity | now intros ->]. Qed.

Lemma trimEnd_noLeadingSpace (s : string) :
  noLeadingSpace s -> noLeadingSpace (trimEnd s).
Proof.
  destruct s as [|c s]; simpl; [trivial|]. intros E.
  destruct (trimEnd s); simpl; [now rewrite E | exact E].
Qed.

Lemma trimEnd_idem (s : string) : trimEnd (trimEnd s) = trimEnd s.
Proof.
  induction s as [|c s IH]; simpl; [reflexivity|].
  destruct (trimEnd s) as [|d r] eqn:E.
  - destruct (isWhiteSpace c) eqn:W; simpl; [reflexivity | now rewrite W].
  - cbn [trimEnd] in *. now rewrite IH.
Qed.


Lemma digits36_nonempty (fuel : nat) (n : Z) (acc : string) :
  acc <> EmptyString -> digits36 fuel n acc <> EmptyString.
Proof.
  revert n acc; induction fuel as [|fuel IH]; intros n acc H; simpl; [exact H|].
  destruct (n / 36 =? 0)%Z; [discriminate | apply IH; discriminate].
Qed.

Lemma toString36_nonempty (n : Z) : toString36 n <> EmptyString.
Proof.
  unfold toString36. destruct (n <? 0)%Z; [discriminate|].
  simpl. destruct (n / 36 =? 0)%Z; [discriminate | apply digits36_nonempty; discriminate].
Qed.

(** The fuel of [toString36] is never used up: more fuel gives the same
    digits. *)
Lemma digits36_fuel (f k : nat) (n : Z) (acc : string) :
  (0 <= n < 2 ^ Z.of_nat (S f))%Z ->
  digits36 (S f + k) n acc = digits36 (S f) n acc.
Proof.
  revert n acc; induction f as [|f IH]; intros n acc H.
  - simpl. replace (n / 36)%Z with 0%Z; [reflexivity|].
    symmetry. apply Z.div_small. change (2 ^ Z.of_nat 1)%Z with 2%Z in H. lia.
  - change (S (S f) + k) with (S (S f + k)).
    cbn [digits36]. destruct (n / 36 =? 0)%Z; [reflexivity|].
    apply IH. split; [apply Z.div_pos; lia|].
    apply Z.div_lt_upper_bound; [lia|].
    rewrite (Nat2Z.inj_succ (S f)), Z.pow_succ_r in H by lia. lia.
Qed.

Lemma toString36_fuel (k : nat) (n : Z) :
  (0 <= n)%Z ->
  digits36 (S (Z.to_nat (Z.log2 n)) + k) n EmptyString = toString36 n.
Proof.
  intros H. unfold toString36.
  destruct (n <? 0)%Z eqn:E; [apply Z.ltb_lt in E; lia|].
  apply digits36_fuel. split; [exact H|].
  rewrite Nat2Z.inj_succ, Z2Nat.id by apply Z.log2_nonneg.
  destruct (Z.eq_dec n 0) as [->|N]; [reflexivity|].
  apply Z.log2_spec. lia.
Qed.


Lemma append_nonempty_r (s t : string) : t <> EmptyString -> s ++ t <> EmptyString.
Proof. destruct s; simpl; [trivial | discriminate]. Qed.

(* ================================================================= *)
(** ** Lists *)

Lemma findIndex_none {A : Type} (p : A -> bool) (l : list A) :
  (forall x, In x l -> p x = false) -> findIndex p l = None.
Proof.
  induction l as [|x l IH]; simpl; intros H; [reflexivity|].
  rewrite (H x (or_introl eq_refl)), IH; [reflexivity|].
  intros y Hy. apply H. now right.
Qed.

Lemma find_first {A : Type} (p : A -> bool) (l : list A) (x : A) :
  In x l -> p x = true -> exists y, find p l = Some y.
Proof.
  intros Hin Hp. destruct (find p l) as [y|] eqn:E; [now exists y|].
  rewrite (find_none p l E x Hin) in Hp. discriminate.
Qed.

Lemma filter_Restricted {A : Type} (p : A -> bool) (P : A -> Prop) (l : list A) :
  (forall x, p x = true <-> P x) -> Restricted P l (filter p l).
Proof.
  intros H. induction l as [|x l IH]; simpl; [constructor|].
  destruct (p x) eqn:E.
  - apply Restricted_keep; [now apply H | exact IH].
  - apply Restricted_drop; [|exact IH]. rewrite <- H, E. discriminate.
Qed.

Lemma Restricted_filter {A : Type} (p : A -> bool) (P : A -> Prop) (l l' : list A) :
  (forall x, p x = true <-> P x) -> Restricted P l l' -> l' = filter p l.
Proof.
  intros H R. induction R as [|x l l' Hx _ IH|x l l' Hx _ IH]; simpl.
  - reflexivity.
  - apply H in Hx. now rewrite Hx, IH.
  - destruct (p x) eqn:E; [|exact IH]. apply H in E. contradiction.
Qed.

Lemma Restricted_In {A : Type} (P : A -> Prop) (l l' : list A) (x : A) :
  Restricted P l l' -> (In x l' <-> In x l /\ P x).
Proof.
  intros R. induction R as [|y l l' Hy _ IH|y l l' Hy _ IH]; simpl.
  - tauto.
  - rewrite IH. split.
    + intros [->|[H1 H2]]; tauto.
    + intros [[->|H1] H2]; tauto.
  - rewrite IH. split.
    + tauto.
    + intros [[->|H1] H2]; [contradiction | tauto].
Qed.

(* ================================================================= *)
(** ** The search predicate *)

Lemma matchesTerm_spec (q : string) (c : Contact) :
  matchesTerm (toLowerCase q) c = true <-> MatchesQuery q c.
Proof.
  unfold matchesTerm, MatchesQuery, ContainsCI.
  rewrite !orb_true_iff, !includes_spec. tauto.
Qed.

(** The term [searchContacts] looks for is the query trimmed, in lower case. *)
Lemma searchTerm_spec (query : string) (c : Contact) :
  matchesTerm (trim (toLowerCase query)) c = true <-> MatchesQuery (trim query) c.
Proof. rewrite trim_toLowerCase. apply matchesTerm_spec. Qed.

(* ================================================================= *)
(** ** Properties of the manager, for any persistence port *)

Section Properties.

Context {S : Type} {port : IContactStorage S}.

Implicit Types (w : World S) (l : Loc) (q i : string).

(** *** Searching *)

(** The view [searchContacts] computes. *)
Lemma searchContacts_eq q w :
  searchContacts q w =
  let found :=
    if truthy (trim q)
    then filter (fun contact => matchesTerm (trim (toLowerCase q)) (heap w contact))
                (contacts w)
    else contacts w in
  (Ok found, setFilteredContacts found w).
Proof. unfold searchContacts. destruct (truthy (trim q)); reflexivity. Qed.

Lemma searchContacts_follows q w :
  ViewFollows q (snd (searchContacts q w)).
Proof.
  rewrite searchContacts_eq. unfold ViewFollows, ViewRestrictedTo. simpl.
  destruct (truthy (trim q)); [|reflexivity].
  apply filter_Restricted. intros l. apply searchTerm_spec.
Qed.

(** [applyCurrentFilter] never throws, changes the filtered view only, and
    leaves it following the text in the search box. *)
Lemma applyCurrentFilter_spec w :
  exists found,
    applyCurrentFilter w = (Ok tt, setFilteredContacts found w) /\
    ViewFollows (pageQuery w) (setFilteredContacts found w).
Proof.
  unfold applyCurrentFilter, pageQuery, bind, gets, modify, ret.
  destruct (searchInput w) as [value|] eqn:E; cbn [fst snd].
  - destruct (truthy (trim value)) eqn:T.
    + rewrite searchContacts_eq. cbn zeta. rewrite T. eexists. split; [reflexivity|].
      unfold ViewFollows, ViewRestrictedTo. rewrite T. simpl.
      apply filter_Restricted. intros l. apply searchTerm_spec.
    + eexists. split; [reflexivity|]. unfold ViewFollows. now rewrite T.
  - eexists. split; [reflexivity|]. reflexivity.
Qed.

(** C3 (as amended).  [searchContacts] returns the filtered view it installs
    and changes nothing else.  For a query that is empty or white space the
    view is the canonical collection; for any other query it is the
    canonical collection, in its order, restricted to the records whose first
    name, last name, e-mail address or full name contains the query with its
    leading and trailing white space removed, as a case-insensitive
    substring. *)
Theorem searchContacts_view q w :
  fst (searchContacts q w) = Ok (filteredContacts (snd (searchContacts q w))) /\
  snd (searchContacts q w) =
    setFilteredContacts (filteredContacts (snd (searchContacts q w))) w /\
  if truthy (trim q)
  then ViewRestrictedTo (trim q) (snd (searchContacts q w))
  else filteredContacts (snd (searchContacts q w)) = contacts w.
Proof.
  split; [|split].
  - rewrite searchContacts_eq. reflexivity.
  - rewrite searchContacts_eq. reflexivity.
  - generalize (searchContacts_follows q w). unfold ViewFollows.
    destruct (truthy (trim q)); [trivial|].
    rewrite searchContacts_eq. simpl. trivial.
Qed.


(** *** The end of a mutation *)

Lemma saveContacts_eq w :
  saveContacts w =
  (fst (save (deref w (contacts w)) (storage w)),
   logCall (CallSave (deref w (contacts w)))
           (setStorage (snd (save (deref w (contacts w)) (storage w))) w)).
Proof.
  unfold saveContacts. now destruct (save (deref w (contacts w)) (storage w)).
Qed.

(** Whether [finish] returns or throws is the port's decision. *)
Lemma finish_result {A : Type} (a : A) w :
  fst (finish a w) =
  match fst (save (deref w (contacts w)) (storage w)) with
  | Ok _ => Ok a
  | Throw e => Throw e
  end.
Proof.
  unfold finish, bind. rewrite saveContacts_eq.
  destruct (fst (save (deref w (contacts w)) (storage w))) as [[]|e]; [|reflexivity].
  match goal with |- context [applyCurrentFilter ?x] =>
    destruct (applyCurrentFilter_spec x) as [found [-> _]] end.
  reflexivity.
Qed.

(** [finish] changes neither the heap nor the canonical collection. *)
Lemma finish_frame {A : Type} (a : A) w :
  heap (snd (finish a w)) = heap w /\
  next (snd (finish a w)) = next w /\
  contacts (snd (finish a w)) = contacts w /\
  searchInput (snd (finish a w)) = searchInput w /\
  oracle (snd (finish a w)) = oracle w.
Proof.
  unfold finish, bind. rewrite saveContacts_eq.
  destruct (fst (save (deref w (contacts w)) (storage w))) as [[]|e];
    [|now repeat split].
  match goal with |- context [applyCurrentFilter ?x] =>
    destruct (applyCurrentFilter_spec x) as [found [-> _]] end.
  now repeat split.
Qed.

(** When the save throws, the filter is not applied again. *)
Lemma finish_throw {A : Type} (a : A) w e :
  fst (save (deref w (contacts w)) (storage w)) = Throw e ->
  fst (finish a w) = Throw e /\
  filteredContacts (snd (finish a w)) = filteredContacts w /\
  portCalls (snd (finish a w)) = CallSave (deref w (contacts w)) :: portCalls w.
Proof.
  intros H. unfold finish, bind. rewrite saveContacts_eq, H. now repeat split.
Qed.

(** When [finish] returns, the filtered view follows the search box. *)
Lemma finish_ok {A : Type} (a b : A) w w' :
  finish a w = (Ok b, w') ->
  b = a /\ ViewFollows (pageQuery w) w'.
Proof.
  unfold finish, bind. rewrite saveContacts_eq.
  destruct (fst (save (deref w (contacts w)) (storage w))) as [[]|e]; [|discriminate].
  match goal with |- context [applyCurrentFilter ?x] =>
    destruct (applyCurrentFilter_spec x) as [found [-> F]] end.
  unfold ret. intros H. injection H as <- <-. split; [reflexivity | exact F].
Qed.

(** *** The three mutations, step by step *)

Lemma addContact_run (data : ContactData) w :
  findByEmail (new_email data) w = None ->
  addContact data w = finish (next w) (pushed data w).
Proof.
  intros H. unfold addContact, bind at 1, gets at 1. rewrite H.
  unfold pushed, construct, finish, bind, withOracle, alloc, gets, modify,
    setOracle, setContacts.
  destruct (newContact _ _ _ _ _ None (oracle w)) as [c o]. reflexivity.
Qed.

Lemma validateEmail_frame i l (u : ContactUpdate) w :
  snd (validateEmail i l u w) = w.
Proof.
  unfold validateEmail, bind, gets, throw, ret.
  destruct (upd_email u) as [e|]; [|reflexivity]. simpl.
  destruct (truthy e && negb (e =? email (heap w l))); [|reflexivity].
  destruct (findByEmail e w) as [x|]; [|reflexivity].
  now destruct (negb (id (heap w x) =? i)).
Qed.

Lemma updateContact_run i (u : ContactUpdate) w l :
  findById i w = Some l ->
  fst (validateEmail i l u w) = Ok tt ->
  updateContact i u w = finish l (updated l u w).
Proof.
  intros H V. unfold updateContact, bind at 1, gets at 1. rewrite H.
  unfold bind at 1.
  pose proof (validateEmail_frame i l u w) as F.
  destruct (validateEmail i l u w) as [r w1]. simpl in V, F. subst r w1.
  unfold updated, finish, updateObject, bind, withOracle, gets, modify, setOracle, setHeap.
  destruct (update u (heap w l) (oracle w)) as [c o]. reflexivity.
Qed.

Lemma deleteContact_run i w k :
  findIndex (fun contact => id (heap w contact) =? i) (contacts w) = Some k ->
  deleteContact i w = finish true (spliced k w).
Proof.
  intros H. unfold deleteContact, bind at 1, gets at 1. rewrite H. reflexivity.
Qed.

(** *** The change in memory *)

Lemma store_same (h : Loc -> Contact) l (c : Contact) : store h l c l = c.
Proof. unfold store. now rewrite Nat.eqb_refl. Qed.

Lemma store_other (h : Loc -> Contact) l l' (c : Contact) :
  l' <> l -> store h l c l' = h l'.
Proof. unfold store. intros H. apply Nat.eqb_neq in H. now rewrite H. Qed.

Lemma map_store_fresh (h : Loc -> Contact) l (c : Contact) (ls : list Loc) :
  ~ In l ls -> map (store h l c) ls = map h ls.
Proof.
  intros H. apply map_ext_in. intros l' Hl'. apply store_other.
  intros ->. contradiction.
Qed.

Lemma pushed_spec (data : ContactData) w :
  heap (pushed data w) = store (heap w) (next w) (fst (construct data (oracle w))) /\
  next (pushed data w) = Datatypes.S (next w) /\
  contacts (pushed data w) = (contacts w ++ [next w])%list /\
  filteredContacts (pushed data w) = filteredContacts w /\
  storage (pushed data w) = storage w /\
  searchInput (pushed data w) = searchInput w /\
  portCalls (pushed data w) = portCalls w.
Proof. unfold pushed. destruct (construct data (oracle w)). now repeat split. Qed.

Lemma pushed_deref (data : ContactData) w :
  Allocated w ->
  deref (pushed data w) (contacts (pushed data w)) =
  (deref w (contacts w) ++ [fst (construct data (oracle w))])%list.
Proof.
  intros WF. destruct (pushed_spec data w) as (Hh & _ & Hc & _).
  unfold deref. rewrite Hh, Hc, map_app. simpl. rewrite store_same.
  rewrite map_store_fresh; [reflexivity|].
  intros Hin. apply WF in Hin. lia.
Qed.

Lemma updated_spec l (u : ContactUpdate) w :
  heap (updated l u w) = store (heap w) l (fst (update u (heap w l) (oracle w))) /\
  next (updated l u w) = next w /\
  contacts (updated l u w) = contacts w /\
  filteredContacts (updated l u w) = filteredContacts w /\
  storage (updated l u w) = storage w /\
  searchInput (updated l u w) = searchInput w /\
  portCalls (updated l u w) = portCalls w.
Proof. unfold updated. destruct (update u (heap w l) (oracle w)). now repeat split. Qed.


(** *** Adding *)

(** C4.  When a record of the canonical collection has the e-mail address of
    the new contact, compared without regard to case, [addContact] throws
    DuplicateEmail and the world is what it was: no record is added and the
    persistence port is not called. *)
Theorem addContact_duplicate (data : ContactData) w l :
  In l (contacts w) ->
  SameEmail (email (heap w l)) (new_email data) ->
  addContact data w = (Throw DuplicateEmail, w).
Proof.
  intros Hin Hsame.
  destruct (find_first
              (fun contact => toLowerCase (email (heap w contact)) =?
                              toLowerCase (new_email data))
              (contacts w) l Hin) as [y Hy].
  - now apply String.eqb_eq.
  - unfold addContact, bind, gets, findByEmail. now rewrite Hy.
Qed.

(** C7.  Let the store refuse every save with an error [e].  A mutation that
    passed its checks still changes the canonical collection in memory, and
    the error of the port reaches the caller: after [addContact] the new
    record is appended, after [updateContact] the record holds the new
    fields, after [deleteContact] the record is gone.  Nothing is rolled
    back. *)
Theorem save_failure_keeps_change w (e : Error) :
  Rejects (storage w) e ->
  Allocated w ->
  (forall data : ContactData,
      findByEmail (new_email data) w = None ->
      fst (addContact data w) = Throw e /\
      contacts (snd (addContact data w)) = (contacts w ++ [next w])%list /\
      deref (snd (addContact data w)) (contacts (snd (addContact data w))) =
        (deref w (contacts w) ++ [fst (construct data (oracle w))])%list) /\
  (forall i (u : ContactUpdate) l,
      findById i w = Some l ->
      fst (validateEmail i l u w) = Ok tt ->
      fst (updateContact i u w) = Throw e /\
      contacts (snd (updateContact i u w)) = contacts w /\
      heap (snd (updateContact i u w)) l = fst (update u (heap w l) (oracle w))) /\
  (forall i k,
      findIndex (fun contact => id (heap w contact) =? i) (contacts w) = Some k ->
      fst (deleteContact i w) = Throw e /\
      contacts (snd (deleteContact i w)) = splice1 k (contacts w) /\
      heap (snd (deleteContact i w)) = heap w).
Proof.
  intros R WF. split; [|split].
  - intros data H. rewrite (addContact_run data w H).
    destruct (pushed_spec data w) as (_ & _ & Hc & _ & Hs & _).
    destruct (finish_frame (next w) (pushed data w)) as (Fh & _ & Fc & _).
    split; [|split].
    + apply finish_throw. rewrite Hs. apply R.
    + now rewrite Fc.
    + unfold deref at 1. rewrite Fh, Fc. now apply pushed_deref.
  - intros i u l H V. rewrite (updateContact_run i u w l H V).
    destruct (updated_spec l u w) as (Hh & _ & Hc & _ & Hs & _).
    destruct (finish_frame l (updated l u w)) as (Fh & _ & Fc & _).
    split; [|split].
    + apply finish_throw. rewrite Hs. apply R.
    + now rewrite Fc.
    + now rewrite Fh, Hh, store_same.
  - intros i k H. rewrite (deleteContact_run i w k H).
    destruct (finish_frame true (spliced k w)) as (Fh & _ & Fc & _).
    split; [|split].
    + apply finish_throw. apply R.
    + now rewrite Fc.
    + now rewrite Fh.
Qed.

(** *** Updating *)

(** C8.  [updateContact] on a record that exists, once the e-mail check has
    passed: the canonical collection lists the same objects, no object is
    built, every other object is untouched, and the record itself keeps its
    id and createdAt, takes the value of each field the update has, keeps
    each field the update does not have, and gets the time of the clock as
    updatedAt.  The reference returned is that of the record. *)
Theorem updateContact_frame i (u : ContactUpdate) w l :
  findById i w = Some l ->
  fst (validateEmail i l u w) = Ok tt ->
  contacts (snd (updateContact i u w)) = contacts w /\
  next (snd (updateContact i u w)) = next w /\
  (forall l', l' <> l -> heap (snd (updateContact i u w)) l' = heap w l') /\
  heap (snd (updateContact i u w)) l =
    {| id := id (heap w l);
       firstName := match upd_firstName u with
                    | Some v => v | None => firstName (heap w l) end;
       lastName := match upd_lastName u with
                   | Some v => v | None => lastName (heap w l) end;
       email := match upd_email u with
                | Some v => v | None => email (heap w l) end;
       phone := match upd_phone u with
                | Some v => v | None => phone (heap w l) end;
       address := match upd_address u with
                  | Some v => v | None => address (heap w l) end;
       createdAt := createdAt (heap w l);
       updatedAt := clock (oracle w) (clockReads (oracle w)) |} /\
  forall a, fst (updateContact i u w) = Ok a -> a = l.
Proof.
  intros H V. rewrite (updateContact_run i u w l H V).
  destruct (updated_spec l u w) as (Hh & Hn & Hc & _).
  destruct (finish_frame l (updated l u w)) as (Fh & Fn & Fc & _).
  rewrite Fh, Fn, Fc, Hh, Hn, Hc. repeat split.
  - intros l' Hl'. now apply store_other.
  - now rewrite store_same.
  - intros a. rewrite finish_result.
    destruct (fst (save _ _)); [now intros [= <-] | discriminate].
Qed.

Lemma NoDup_map_eq {A B : Type} (f : A -> B) (xs : list A) (a b : A) :
  NoDup (map f xs) -> In a xs -> In b xs -> f a = f b -> a = b.
Proof.
  induction xs as [|x xs IH]; simpl; intros N Ha Hb E; [contradiction|].
  inversion N as [|? ? Hx N']; subst.
  destruct Ha as [->|Ha], Hb as [->|Hb]; try reflexivity.
  - exfalso. apply Hx. rewrite E. now apply in_map.
  - exfalso. apply Hx. rewrite <- E. now apply in_map.
  - now apply IH.
Qed.

(** In a directory with unique e-mail addresses, the address of a record,
    in any case, is held by that record only. *)
Lemma unique_emails_held_only i (e : string) w l :
  findById i w = Some l ->
  SameEmail e (email (heap w l)) ->
  EmailsUnique (deref w (contacts w)) ->
  HeldOnlyBy w e i.
Proof.
  intros H Hsame Huniq x Hx Ex.
  destruct (find_some _ _ H) as [Hin Hid].
  assert (x = l) as ->.
  { unfold EmailsUnique, deref in Huniq. rewrite map_map in Huniq.
    apply (NoDup_map_eq _ _ x l Huniq Hx Hin). simpl.
    unfold SameEmail in *. congruence. }
  now apply String.eqb_eq.
Qed.


(** *** The filtered view after a mutation *)

Lemma addContact_ok (data : ContactData) w l w' :
  addContact data w = (Ok l, w') ->
  findByEmail (new_email data) w = None.
Proof.
  unfold addContact, bind at 1, gets at 1.
  destruct (findByEmail (new_email data) w); [discriminate | reflexivity].
Qed.

Lemma updateContact_ok i (u : ContactUpdate) w l w' :
  updateContact i u w = (Ok l, w') ->
  exists l0, findById i w = Some l0 /\ fst (validateEmail i l0 u w) = Ok tt.
Proof.
  unfold updateContact, bind at 1, gets at 1.
  destruct (findById i w) as [l0|]; [|discriminate].
  intros H. exists l0. split; [reflexivity|]. revert H. unfold bind at 1.
  now destruct (validateEmail i l0 u w) as [[[]|x] w1].
Qed.

Lemma deleteContact_ok i w w' :
  deleteContact i w = (Ok true, w') ->
  exists k, findIndex (fun contact => id (heap w contact) =? i) (contacts w) = Some k.
Proof.
  unfold deleteContact, bind at 1, gets at 1.
  destruct (findIndex _ (contacts w)) as [k|]; [now exists k | discriminate].
Qed.

(** C2 (as amended).  The manager does not keep the query of the last search:
    after a mutation that returned, the filtered view is computed again from
    the text that the search box of the page holds at that time.  It is the
    whole canonical collection when that text is empty or white space (or
    the page has no search box), and else the canonical collection, in its
    order, restricted to the records that match the text trimmed; so the
    record [addContact] returns is in the filtered view exactly when the
    text is empty or white space or the record matches it. *)
Theorem mutation_reapplies_page_query w w' :
  Mutation w w' ->
  pageQuery w' = pageQuery w /\
  ViewFollows (pageQuery w) w' /\
  forall (data : ContactData) l,
    addContact data w = (Ok l, w') ->
    (In l (filteredContacts w') <->
     truthy (trim (pageQuery w)) = false \/
     MatchesQuery (trim (pageQuery w)) (heap w' l)).
Proof.
  intros Hm.
  assert (Hq : pageQuery w' = pageQuery w /\ ViewFollows (pageQuery w) w').
  { destruct Hm as [data l H | i u l H | i H].
    - pose proof (addContact_ok _ _ _ _ H) as E.
      rewrite (addContact_run data w E) in H.
      destruct (pushed_spec data w) as (_ & _ & _ & _ & _ & Hi & _).
      destruct (finish_frame (next w) (pushed data w)) as (_ & _ & _ & Fi & _).
      rewrite H in Fi. cbn [snd] in Fi. apply finish_ok in H as [_ F].
      unfold pageQuery in *. rewrite Hi in Fi, F. rewrite Fi. now split.
    - destruct (updateContact_ok _ _ _ _ _ H) as (l0 & E & V).
      rewrite (updateContact_run i u w l0 E V) in H.
      destruct (updated_spec l0 u w) as (_ & _ & _ & _ & _ & Hi & _).
      destruct (finish_frame l0 (updated l0 u w)) as (_ & _ & _ & Fi & _).
      rewrite H in Fi. cbn [snd] in Fi. apply finish_ok in H as [_ F].
      unfold pageQuery in *. rewrite Hi in Fi, F. rewrite Fi. now split.
    - destruct (deleteContact_ok _ _ _ H) as [k E].
      rewrite (deleteContact_run i w k E) in H.
      destruct (finish_frame true (spliced k w)) as (_ & _ & _ & Fi & _).
      rewrite H in Fi. cbn [snd] in Fi. apply finish_ok in H as [_ F].
      unfold pageQuery in *. simpl in Fi, F. rewrite Fi. now split. }
  destruct Hq as [Hq F]. split; [exact Hq|]. split; [exact F|].
  intros data l H.
  pose proof (addContact_ok _ _ _ _ H) as E.
  rewrite (addContact_run data w E) in H.
  destruct (pushed_spec data w) as (_ & _ & Hc & _).
  destruct (finish_frame (next w) (pushed data w)) as (_ & _ & Fc & _).
  rewrite H in Fc. cbn [snd] in Fc. apply finish_ok in H as [-> _].
  assert (Hin : In (next w) (contacts w')).
  { rewrite Fc, Hc. apply in_or_app. right. now left. }
  unfold ViewFollows, ViewRestrictedTo in F.
  destruct (truthy (trim (pageQuery w))).
  - rewrite (Restricted_In _ _ _ (next w) F). split.
    + intros [_ M]. now right.
    + intros [D|M]; [discriminate | now split].
  - rewrite F. split; [now left | trivial].
Qed.

(** *** Unique e-mail addresses

    What the checks of the manager do keep. *)

Lemma NoDup_map_splice1 {A B : Type} (f : A -> B) (k : nat) (xs : list A) :
  NoDup (map f xs) -> NoDup (map f (splice1 k xs)).
Proof.
  revert k; induction xs as [|x xs IH]; intros k N; simpl; [constructor|].
  inversion N as [|? ? Hx N']; subst.
  destruct k as [|k]; [exact N'|].
  simpl. constructor; [|now apply IH].
  intros Hin. apply Hx. clear - Hin.
  revert k Hin; induction xs as [|y ys IH]; intros k Hin; simpl in *; [contradiction|].
  destruct k as [|k]; simpl in Hin; [now right|].
  destruct Hin as [<-|Hin]; [now left | right; now apply (IH k)].
Qed.

Lemma NoDup_map_snoc {A B : Type} (f : A -> B) (xs : list A) (c : A) :
  NoDup (map f xs) -> ~ In (f c) (map f xs) -> NoDup (map f (xs ++ [c])%list).
Proof.
  intros N H. rewrite map_app. simpl.
  induction (map f xs) as [|y ys IH]; simpl.
  - constructor; [intros [] | constructor].
  - inversion N as [|? ? Hy N']; subst. constructor.
    + rewrite in_app_iff. intros [Hin|[<-|[]]]; [contradiction|].
      apply H. now left.
    + apply IH; [exact N'|]. intros Hin. apply H. now right.
Qed.

(** One element of the list gets a value that no element has. *)
Lemma NoDup_map_override {B : Type} (g g' : Loc -> B) (l : Loc) (xs : list Loc) :
  NoDup (map g xs) ->
  (forall x, x <> l -> g' x = g x) ->
  (forall x, In x xs -> g x <> g' l) ->
  NoDup (map g' xs).
Proof.
  intros N Hother Hnew.
  induction xs as [|a xs IH]; simpl; [constructor|].
  inversion N as [|? ? Ha N']; subst.
  constructor.
  - rewrite in_map_iff. intros [x [Ex Hx]].
    destruct (Nat.eq_dec a l) as [->|Hal].
    + destruct (Nat.eq_dec x l) as [->|Hxl].
      * apply Ha. now apply in_map.
      * rewrite (Hother x Hxl) in Ex. apply (Hnew x); [now right | exact Ex].
    + rewrite (Hother a Hal) in Ex.
      destruct (Nat.eq_dec x l) as [->|Hxl].
      * apply (Hnew a); [now left | now symmetry].
      * rewrite (Hother x Hxl) in Ex. apply Ha. rewrite <- Ex. now apply in_map.
  - apply IH; [exact N'|]. intros x Hx. apply Hnew. now right.
Qed.

Lemma updateContact_not_found i (u : ContactUpdate) w :
  findById i w = None -> updateContact i u w = (Throw NotFound, w).
Proof. intros H. unfold updateContact, bind, gets. now rewrite H. Qed.

Lemma updateContact_invalid i (u : ContactUpdate) w l (x : Error) :
  findById i w = Some l ->
  fst (validateEmail i l u w) = Throw x ->
  updateContact i u w = (Throw x, w).
Proof.
  intros H V. unfold updateContact, bind at 1, gets at 1. rewrite H.
  unfold bind at 1. pose proof (validateEmail_frame i l u w) as F.
  destruct (validateEmail i l u w) as [r w1]. simpl in V, F. now subst.
Qed.

(** What a check that passed has established about the new e-mail address. *)
Lemma validateEmail_ok i l (u : ContactUpdate) w :
  fst (validateEmail i l u w) = Ok tt ->
  match upd_email u with
  | None => True
  | Some e =>
      e = EmptyString \/ e = email (heap w l) \/ findByEmail e w = None \/
      exists x, findByEmail e w = Some x /\ id (heap w x) = i
  end.
Proof.
  unfold validateEmail, bind, gets, throw, ret.
  destruct (upd_email u) as [e|]; [|trivial]. simpl.
  destruct (truthy e) eqn:T; simpl.
  - destruct (e =? email (heap w l)) eqn:E; simpl.
    + intros _. right. left. now apply String.eqb_eq.
    + destruct (findByEmail e w) as [x|]; [|intros _; right; right; now left].
      destruct (id (heap w x) =? i) eqn:I; simpl; [|discriminate].
      intros _. right. right. right. exists x. split; [reflexivity|].
      now apply String.eqb_eq.
  - intros _. left. now apply truthy_false.
Qed.

(** X30.  From a directory with unique e-mail addresses, every operation of
    the manager leads to a directory with unique e-mail addresses, whether it
    returns or throws; for [updateContact], when the ids are unique and the
    update does not set the e-mail address to the empty string. *)
Theorem emails_unique_preserved w :
  Allocated w ->
  EmailsUnique (deref w (contacts w)) ->
  (forall data : ContactData,
      EmailsUnique (deref (snd (addContact data w))
                          (contacts (snd (addContact data w))))) /\
  (forall i (u : ContactUpdate),
      IdsUnique (deref w (contacts w)) ->
      upd_email u <> Some EmptyString ->
      EmailsUnique (deref (snd (updateContact i u w))
                          (contacts (snd (updateContact i u w))))) /\
  (forall i,
      EmailsUnique (deref (snd (deleteContact i w))
                          (contacts (snd (deleteContact i w))))) /\
  (forall q,
      EmailsUnique (deref (snd (searchContacts q w))
                          (contacts (snd (searchContacts q w))))) /\
  EmailsUnique (deref (snd (clearAllContacts w))
                      (contacts (snd (clearAllContacts w)))).
Proof.
  intros WF U. repeat apply conj.
  - (* addContact *)
    intros data. destruct (findByEmail (new_email data) w) as [x|] eqn:F.
    + unfold addContact, bind, gets. rewrite F. exact U.
    + rewrite (addContact_run data w F).
      destruct (finish_frame (next w) (pushed data w)) as (Fh & _ & Fc & _).
      unfold deref at 1. rewrite Fh, Fc.
      change (map (heap (pushed data w)) (contacts (pushed data w)))
        with (deref (pushed data w) (contacts (pushed data w))).
      rewrite (pushed_deref data w WF).
      apply NoDup_map_snoc; [exact U|].
      unfold deref. rewrite map_map, in_map_iff. intros [x [Ex Hx]].
      pose proof (find_none _ _ F x Hx) as N. simpl in N.
      apply String.eqb_neq in N. apply N. rewrite Ex.
      unfold construct, newContact, generateId. reflexivity.
  - (* updateContact *)
    intros i u I Hu. destruct (findById i w) as [l|] eqn:F.
    2: { now rewrite (updateContact_not_found i u w F). }
    destruct (fst (validateEmail i l u w)) as [[]|x] eqn:V.
    2: { now rewrite (updateContact_invalid i u w l x F V). }
    rewrite (updateContact_run i u w l F V).
    destruct (updated_spec l u w) as (Hh & _ & Hc & _).
    destruct (finish_frame l (updated l u w)) as (Fh & _ & Fc & _).
    unfold deref at 1. rewrite Fh, Fc, Hh, Hc.
    unfold EmailsUnique, deref in *. rewrite map_map in *.
    destruct (find_some _ _ F) as [Hl Hid]. apply String.eqb_eq in Hid.
    set (c := fst (update u (heap w l) (oracle w))).
    assert (Ec : email c = match upd_email u with
                           | Some e => e | None => email (heap w l) end)
      by reflexivity.
    assert (Same : toLowerCase (email c) = toLowerCase (email (heap w l)) ->
                   NoDup (map (fun x => toLowerCase (email (store (heap w) l c x)))
                              (contacts w))).
    { intros E. erewrite map_ext; [exact U|]. intros x. simpl. unfold store.
      destruct (Nat.eqb x l) eqn:X; [|reflexivity].
      apply Nat.eqb_eq in X. now subst x. }
    pose proof (validateEmail_ok i l u w V) as K.
    destruct (upd_email u) as [e|] eqn:Eu; [|apply Same; now rewrite Ec].
    destruct K as [-> | [-> | [N | [x [Fx Ix]]]]].
    + contradiction.
    + apply Same. now rewrite Ec.
    + apply (NoDup_map_override
               (fun x => toLowerCase (email (heap w x))) _ l); [exact U | |].
      * intros x Hx. now rewrite store_other.
      * intros x Hx. rewrite store_same, Ec.
        pose proof (find_none _ _ N x Hx) as Q. simpl in Q.
        now apply String.eqb_neq in Q.
    + apply Same. rewrite Ec.
      destruct (find_some _ _ Fx) as [Hx Ex]. apply String.eqb_eq in Ex.
      assert (x = l) as ->; [|now symmetry].
      unfold IdsUnique in I. rewrite map_map in I.
      apply (NoDup_map_eq _ _ x l I Hx Hl). simpl. congruence.
  - (* deleteContact *)
    intros i.
    destruct (findIndex (fun contact => id (heap w contact) =? i) (contacts w))
      as [k|] eqn:F.
    + rewrite (deleteContact_run i w k F).
      destruct (finish_frame true (spliced k w)) as (Fh & _ & Fc & _).
      unfold deref. rewrite Fh, Fc. simpl.
      unfold EmailsUnique, deref in *. rewrite map_map in *.
      now apply NoDup_map_splice1.
    + unfold deleteContact, bind, gets. rewrite F. exact U.
  - (* searchContacts *)
    intros q. rewrite searchContacts_eq. exact U.
  - (* clearAllContacts *)
    unfold clearAllContacts, bind, modify. simpl.
    destruct (clear (storage w)). simpl. constructor.
Qed.


(** *** References stay allocated *)

Lemma Allocated_sub w w' :
  Allocated w -> next w <= next w' ->
  (forall l, In l (contacts w') -> In l (contacts w)) ->
  Allocated w'.
Proof. intros WF Hn Hc l Hl. apply Hc, WF in Hl. lia. Qed.

Lemma splice1_In {A : Type} (k : nat) (xs : list A) (x : A) :
  In x (splice1 k xs) -> In x xs.
Proof.
  revert k; induction xs as [|y ys IH]; intros k H; simpl in *; [contradiction|].
  destruct k as [|k]; [now right|].
  destruct H as [<-|H]; [now left | right; now apply (IH k)].
Qed.

(** Every operation of the manager keeps the canonical collection within
    the objects that were built. *)
Theorem Allocated_preserved w :
  Allocated w ->
  (forall data : ContactData, Allocated (snd (addContact data w))) /\
  (forall i (u : ContactUpdate), Allocated (snd (updateContact i u w))) /\
  (forall i, Allocated (snd (deleteContact i w))) /\
  (forall q, Allocated (snd (searchContacts q w))) /\
  Allocated (snd (clearAllContacts w)).
Proof.
  intros WF. repeat apply conj.
  - intros data. destruct (findByEmail (new_email data) w) as [x|] eqn:F.
    + unfold addContact, bind, gets. now rewrite F.
    + rewrite (addContact_run data w F).
      destruct (pushed_spec data w) as (_ & Hn & Hc & _).
      destruct (finish_frame (next w) (pushed data w)) as (_ & Fn & Fc & _).
      intros l. rewrite Fn, Fc, Hn, Hc, in_app_iff.
      intros [Hl|[<-|[]]]; [apply WF in Hl|]; lia.
  - intros i u. destruct (findById i w) as [l|] eqn:F.
    2: { now rewrite (updateContact_not_found i u w F). }
    destruct (fst (validateEmail i l u w)) as [[]|x] eqn:V.
    2: { now rewrite (updateContact_invalid i u w l x F V). }
    rewrite (updateContact_run i u w l F V).
    destruct (updated_spec l u w) as (_ & Hn & Hc & _).
    destruct (finish_frame l (updated l u w)) as (_ & Fn & Fc & _).
    apply (Allocated_sub w); [exact WF | rewrite Fn, Hn; lia |].
    intros x. now rewrite Fc, Hc.
  - intros i.
    destruct (findIndex (fun contact => id (heap w contact) =? i) (contacts w))
      as [k|] eqn:F.
    + rewrite (deleteContact_run i w k F).
      destruct (finish_frame true (spliced k w)) as (_ & Fn & Fc & _).
      apply (Allocated_sub w); [exact WF | rewrite Fn; simpl; lia |].
      intros x. rewrite Fc. simpl. apply splice1_In.
    + unfold deleteContact, bind, gets. now rewrite F.
  - intros q. now rewrite searchContacts_eq.
  - unfold clearAllContacts, bind, modify. simpl.
    destruct (clear (storage w)). now intros l [].
Qed.


(** *** Deleting *)

(** C9.  When no record of the canonical collection has the id,
    [deleteContact] returns false, throws nothing and leaves the world as it
    was: the canonical collection and the filtered view are unchanged. *)
Theorem deleteContact_unknown i w :
  (forall l, In l (contacts w) -> id (heap w l) <> i) ->
  deleteContact i w = (Ok false, w).
Proof.
  intros H. unfold deleteContact, bind, gets.
  rewrite findIndex_none; [reflexivity|].
  intros l Hl. apply String.eqb_neq. now apply H.
Qed.

End Properties.

(* ================================================================= *)
(** ** The round trip of a record *)

(** The constructor never leaves the id empty: an id that is passed and not
    empty is kept, and a generated id ends with the clock in base 36. *)
Lemma newContact_id_nonempty (f l e : string) (p a i : option string) (o : Oracle) :
  id (fst (newContact f l e p a i o)) <> EmptyString.
Proof.
  unfold newContact, generateId. simpl.
  destruct i as [[|c i]|]; simpl;
    try discriminate; apply append_nonempty_r, toString36_nonempty.
Qed.

Lemma Built_id (c : Contact) : Built c -> id c <> EmptyString.
Proof.
  induction 1 as [f l e p a i o | data o | data c o _ IH].
  - apply newContact_id_nonempty.
  - unfold fromJSON.
    pose proof (newContact_id_nonempty (data_firstName data) (data_lastName data)
                  (data_email data) (data_phone data) (data_address data)
                  (Some (data_id data)) o) as H.
    now destruct (newContact _ _ _ _ _ _ o).
  - exact IH.
Qed.

(** C6.  For every record [c], [fromJSON (toJSON c)] is a record with the
    fields of [c]: the same id, names, e-mail address, phone and address,
    and the same two instants. *)
Theorem fromJSON_toJSON (c : Contact) (o : Oracle) :
  Built c ->
  fst (fromJSON (toJSON c) o) = c.
Proof.
  intros H. apply Built_id in H. destruct c as [i f l e p a ca ua]. simpl in H.
  unfold fromJSON, toJSON, newContact, copyDate. simpl.
  destruct i as [|ch i]; [contradiction | reflexivity].
Qed.

(* ================================================================= *)
(** ** The manager over [localStorage]: runs *)

Lemma run_pair {A B : Type} (p : A * B) (a : A) : fst p = a -> p = (a, snd p).
Proof. destruct p. simpl. now intros ->. Qed.

(** C1.  The e-mail addresses of a directory do not stay unique.  In a new
    directory Ada and Bob are added and Ada's e-mail address is set to the
    empty string; every call returns and the addresses are unique.  Then
    [updateContact] with the empty e-mail address for Bob returns too, since
    the check for duplicates is skipped for an empty string, and two records
    have the same e-mail address. *)
Theorem updateContact_empty_email_duplicates :
  let w0 := fresh None (browser true) in
  let w1 := withAda None (browser true) in
  let w2 := withAdaBob None (browser true) in
  let w3 := withAdaCleared None (browser true) in
  let w4 := snd (updateContact (id (heap w3 1)) (onlyEmail EmptyString) w3) in
  fst (addContact ada w0) = Ok 0 /\
  fst (addContact bob w1) = Ok 1 /\
  fst (updateContact (id (heap w2 0)) (onlyEmail EmptyString) w2) = Ok 0 /\
  id (heap w3 0) <> id (heap w3 1) /\
  EmailsUnique (deref w3 (contacts w3)) /\
  fst (updateContact (id (heap w3 1)) (onlyEmail EmptyString) w3) = Ok 1 /\
  map email (deref w4 (contacts w4)) = [EmptyString; EmptyString] /\
  ~ EmailsUnique (deref w4 (contacts w4)).
Proof.
  cbv zeta.
  split; [vm_compute; reflexivity|]. split; [vm_compute; reflexivity|].
  split; [vm_compute; reflexivity|]. split; [vm_compute; discriminate|].
  split; [|split; [vm_compute; reflexivity|]; split; [vm_compute; reflexivity|]].
  - unfold EmailsUnique.
    assert (E : map (fun c => toLowerCase (email c))
                    (deref (withAdaCleared None (browser true))
                           (contacts (withAdaCleared None (browser true))))
                = [EmptyString; "bob@x.com"]) by (vm_compute; reflexivity).
    rewrite E. repeat constructor; simpl; intuition discriminate.
  - unfold EmailsUnique.
    match goal with |- ~ NoDup ?m =>
      assert (E : m = [EmptyString; EmptyString]) by (vm_compute; reflexivity);
      rewrite E end.
    intros N. inversion N as [|? ? Hn _]. apply Hn. now left.
Qed.

(** C2, as it is stated, fails.  The search box of the page is empty; after
    [searchContacts("ada")] Bob is added: he does not match "ada" and yet is
    in the filtered view. *)
Lemma addContact_forgets_search_query :
  ~ AddReappliesLastSearch (withAda (Some EmptyString) (browser true)) "ada" bob.
Proof.
  intros H.
  assert (R : fst (addContact bob
                     (snd (searchContacts "ada"
                        (withAda (Some EmptyString) (browser true))))) = Ok 1)
    by (vm_compute; reflexivity).
  pose proof (H 1 _ (run_pair _ _ R) eq_refl) as H'.
  destruct H' as [[H1 _] _].
  assert (M : matchesTerm (toLowerCase "ada")
                (heap (snd (addContact bob
                   (snd (searchContacts "ada"
                      (withAda (Some EmptyString) (browser true)))))) 1) = true).
  { apply matchesTerm_spec, H1. vm_compute. right. now left. }
  vm_compute in M. discriminate.
Qed.

(** C2: a run of the amended statement.  The search box holds "ada" when Bob
    is added. *)
Lemma mutation_reapplies_page_query_witness :
  let w := withAda (Some "ada") (browser true) in
  let w' := withAdaBob (Some "ada") (browser true) in
  Mutation w w' /\
  pageQuery w' = pageQuery w /\
  ViewFollows (pageQuery w) w' /\
  forall (data : ContactData) l,
    addContact data w = (Ok l, w') ->
    (In l (filteredContacts w') <->
     truthy (trim (pageQuery w)) = false \/
     MatchesQuery (trim (pageQuery w)) (heap w' l)).
Proof.
  cbv zeta.
  assert (Hm : Mutation (withAda (Some "ada") (browser true))
                        (withAdaBob (Some "ada") (browser true))).
  { apply (Mutation_add _ _ bob 1). unfold withAdaBob.
    apply run_pair. vm_compute. reflexivity. }
  split; [exact Hm|].
  exact (mutation_reapplies_page_query _ _ Hm).
Defined.

(** C3, as it is stated, fails.  The query " ada " is not a substring of any
    field of Ada's record, and yet [searchContacts] keeps the record. *)
Lemma searchContacts_query_not_as_typed :
  ~ SearchKeepsQueryAsTyped (withAda None (browser true)) " ada ".
Proof.
  unfold SearchKeepsQueryAsTyped, ViewRestrictedTo.
  assert (T : truthy (trim " ada ") = true) by reflexivity. rewrite T.
  assert (E1 : contacts (snd (searchContacts " ada " (withAda None (browser true))))
               = [0]) by (vm_compute; reflexivity).
  assert (E2 : filteredContacts
                 (snd (searchContacts " ada " (withAda None (browser true))))
               = [0]) by (vm_compute; reflexivity).
  rewrite E1, E2. intros R.
  inversion R as [|x l l' M _|x l l' _ R']; subst.
  - apply matchesTerm_spec in M. vm_compute in M. discriminate.
  - inversion R'.
Qed.

(** C4: Ada is in the directory with ada@x.com; Al comes with ADA@X.COM. *)
Lemma addContact_duplicate_witness :
  let w := withAda None (browser true) in
  In 0 (contacts w) /\
  SameEmail (email (heap w 0)) (new_email al) /\
  addContact al w = (Throw DuplicateEmail, w).
Proof.
  cbv zeta.
  assert (H1 : In 0 (contacts (withAda None (browser true))))
    by (vm_compute; now left).
  assert (H2 : SameEmail (email (heap (withAda None (browser true)) 0)) (new_email al))
    by (vm_compute; reflexivity).
  split; [exact H1|]. split; [exact H2|].
  exact (addContact_duplicate al _ 0 H1 H2).
Defined.


(** C6: the record of Ada, as [addContact] built it. *)
Lemma fromJSON_toJSON_witness :
  let c := heap (withAda None (browser true)) 0 in
  Built c /\ fst (fromJSON (toJSON c) sampleOracle) = c.
Proof.
  cbv zeta.
  assert (H : Built (heap (withAda None (browser true)) 0)).
  { assert (E : heap (withAda None (browser true)) 0 =
                fst (construct ada (oracle (fresh None (browser true)))))
      by (vm_compute; reflexivity).
    rewrite E. apply Built_new. }
  split; [exact H | exact (fromJSON_toJSON _ sampleOracle H)].
Defined.

(** C7: a browser that takes no write; Ada is added to the empty directory. *)
Lemma save_failure_keeps_change_witness :
  let w := fresh None (browser false) in
  Rejects (storage w) PersistenceWriteFailure /\
  Allocated w /\
  findByEmail (new_email ada) w = None /\
  fst (addContact ada w) = Throw PersistenceWriteFailure /\
  contacts (snd (addContact ada w)) = (contacts w ++ [next w])%list /\
  deref (snd (addContact ada w)) (contacts (snd (addContact ada w))) =
    (deref w (contacts w) ++ [fst (construct ada (oracle w))])%list.
Proof.
  cbv zeta.
  assert (H1 : Rejects (storage (fresh None (browser false))) PersistenceWriteFailure)
    by (intros cs; vm_compute; reflexivity).
  assert (H2 : Allocated (fresh None (browser false))).
  { assert (E : contacts (fresh None (browser false)) = [])
      by (vm_compute; reflexivity).
    unfold Allocated. rewrite E. intros l []. }
  assert (H3 : findByEmail (new_email ada) (fresh None (browser false)) = None)
    by (vm_compute; reflexivity).
  split; [exact H1|]. split; [exact H2|]. split; [exact H3|].
  exact (proj1 (save_failure_keeps_change _ _ H1 H2) ada H3).
Defined.

(** C8: Ada's first name is changed and her phone number is set to
    [undefined]; the update has no other key. *)
Lemma updateContact_frame_witness :
  let w := withAdaBob None (browser true) in
  let i := id (heap w 0) in
  let u := {| upd_firstName := Some "Augusta"; upd_lastName := None;
              upd_email := None; upd_phone := Some None; upd_address := None |} in
  findById i w = Some 0 /\
  fst (validateEmail i 0 u w) = Ok tt /\
  contacts (snd (updateContact i u w)) = contacts w /\
  next (snd (updateContact i u w)) = next w /\
  (forall l', l' <> 0 -> heap (snd (updateContact i u w)) l' = heap w l') /\
  heap (snd (updateContact i u w)) 0 =
    {| id := id (heap w 0);
       firstName := "Augusta";
       lastName := lastName (heap w 0);
       email := email (heap w 0);
       phone := None;
       address := address (heap w 0);
       createdAt := createdAt (heap w 0);
       updatedAt := clock (oracle w) (clockReads (oracle w)) |} /\
  forall a, fst (updateContact i u w) = Ok a -> a = 0.
Proof.
  cbv zeta.
  assert (H1 : findById (id (heap (withAdaBob None (browser true)) 0))
                        (withAdaBob None (browser true)) = Some 0)
    by (vm_compute; reflexivity).
  assert (H2 : fst (validateEmail (id (heap (withAdaBob None (browser true)) 0)) 0
                      {| upd_firstName := Some "Augusta"; upd_lastName := None;
                         upd_email := None; upd_phone := Some None;
                         upd_address := None |}
                      (withAdaBob None (browser true))) = Ok tt)
    by (vm_compute; reflexivity).
  split; [exact H1|]. split; [exact H2|].
  exact (updateContact_frame _ _ _ 0 H1 H2).
Defined.

(** C9: nobody in the directory of Ada and Bob has the id "nobody". *)
Lemma deleteContact_unknown_witness :
  let w := withAdaBob None (browser true) in
  (forall l, In l (contacts w) -> id (heap w l) <> "nobody") /\
  deleteContact "nobody" w = (Ok false, w).
Proof.
  cbv zeta.
  assert (H : forall l, In l (contacts (withAdaBob None (browser true))) ->
                        id (heap (withAdaBob None (browser true)) l) <> "nobody").
  { assert (E : contacts (withAdaBob None (browser true)) = [0; 1])
      by (vm_compute; reflexivity).
    rewrite E. intros l [<-|[<-|[]]]; vm_compute; discriminate. }
  split; [exact H | exact (deleteContact_unknown "nobody" _ H)].
Defined.

(** The only error [LocalStorageManager] throws from [save]. *)
Lemma LocalStorageManager_save_error (cs : list Contact) (ls : LocalStorage) (e : Error) :
  fst (save cs ls) = Throw e -> e = PersistenceWriteFailure.
Proof.
  simpl. unfold LocalStorageManager_save.
  destruct (accepts ls (map toJSON cs)); simpl; [discriminate | now intros [= <-]].
Qed.

(* ================================================================= *)
(** ** More about strings *)

Lemma append_assoc (s t u : string) : (s ++ t) ++ u = s ++ t ++ u.
Proof. induction s as [|c s IH]; simpl; [reflexivity | now rewrite IH]. Qed.

Lemma toLowerCase_append (s t : string) :
  toLowerCase (s ++ t) = toLowerCase s ++ toLowerCase t.
Proof. induction s as [|c s IH]; simpl; [reflexivity | now rewrite IH]. Qed.

Lemma truthy_toLowerCase (s : string) : truthy (toLowerCase s) = truthy s.
Proof. now destruct s. Qed.

Lemma Substring_append_l (t a b : string) : Substring t a -> Substring t (a ++ b).
Proof.
  intros [pre [post ->]]. exists pre, (post ++ b).
  now rewrite !append_assoc.
Qed.

Lemma Substring_append_r (t a b : string) : Substring t b -> Substring t (a ++ b).
Proof.
  intros [pre [post ->]]. exists (a ++ pre), post.
  now rewrite !append_assoc.
Qed.

Lemma trimEnd_append_space (s : string) : trimEnd (s ++ " ") = trimEnd s.
Proof. induction s as [|c s IH]; simpl; [reflexivity | now rewrite IH]. Qed.

Lemma trim_append_space (s : string) : trim (s ++ " ") = trim s.
Proof.
  unfold trim. induction s as [|c s IH]; simpl; [reflexivity|].
  destruct (isWhiteSpace c); [exact IH|].
  apply (trimEnd_append_space (String c s)).
Qed.

(** A string that ends without white space is kept by [trimEnd], whatever
    follows it. *)
Lemma trimEnd_keeps (t post : string) :
  t <> EmptyString -> trimEnd t = t -> trimEnd (t ++ post) = t ++ trimEnd post.
Proof.
  induction t as [|a t IH]; intros Hne Ht; [contradiction|].
  simpl in Ht. simpl.
  destruct (trimEnd t) as [|b r] eqn:E.
  - destruct (isWhiteSpace a) eqn:W; [discriminate|].
    injection Ht as <-. simpl. now destruct (trimEnd post).
  - injection Ht as Ht. rewrite IH; [|rewrite <- Ht; discriminate | exact Ht].
    rewrite <- Ht. reflexivity.
Qed.

Lemma trimEnd_after (pre u : string) :
  trimEnd u <> EmptyString -> trimEnd (pre ++ u) = pre ++ trimEnd u.
Proof.
  intros H. induction pre as [|a pre IH]; simpl; [reflexivity|].
  rewrite IH. destruct (pre ++ trimEnd u) eqn:E; [|reflexivity].
  destruct pre; simpl in E; [contradiction | discriminate].
Qed.

Lemma trimStart_keeps (pre t post : string) :
  t <> EmptyString -> noLeadingSpace t ->
  exists pre', trimStart (pre ++ t ++ post) = pre' ++ t ++ post.
Proof.
  intros Hne Hl. induction pre as [|a pre IH]; simpl.
  - exists EmptyString. simpl. apply trimStart_fixed.
    destruct t; [contradiction | exact Hl].
  - destruct (isWhiteSpace a); [exact IH|].
    now exists (String a pre).
Qed.

(** Trimming a string keeps every occurrence of a string that neither
    starts nor ends with white space. *)
Lemma Substring_trim (t s : string) :
  t <> EmptyString -> noLeadingSpace t -> trimEnd t = t ->
  Substring t s -> Substring t (trim s).
Proof.
  intros Hne Hl Ht [pre [post ->]]. unfold trim.
  destruct (trimStart_keeps pre t post Hne Hl) as [pre' ->].
  assert (K : trimEnd (t ++ post) = t ++ trimEnd post) by now apply trimEnd_keeps.
  rewrite trimEnd_after.
  - rewrite K. now exists pre', (trimEnd post).
  - rewrite K. destruct t; [contradiction | discriminate].
Qed.

(* ================================================================= *)
(** ** More about class Contact *)


(** X1.  The constructor never leaves the id empty.  An id that is passed
    and is not the empty string is kept; when none is passed, or the empty
    string, the id is the text of [Math.random] followed by the clock in
    base 36. *)
Theorem newContact_id (f l e : string) (p a i : option string) (o : Oracle) :
  id (fst (newContact f l e p a i o)) <> EmptyString /\
  id (fst (newContact f l e p a i o)) =
    match i with
    | Some (String c s) => String c s
    | _ => random o (randomDraws o) ++ toString36 (clock o (clockReads o))
    end.
Proof.
  split; [apply newContact_id_nonempty|].
  unfold newContact, generateId. now destruct i as [[|c s]|].
Qed.

(** X2.  [toJSON (fromJSON data)] is [data], for data with an id that is not
    the empty string: every field, the id and both time stamps come back. *)
Theorem toJSON_fromJSON (data : IContact) (o : Oracle) :
  data_id data <> EmptyString ->
  toJSON (fst (fromJSON data o)) = data.
Proof.
  intros H. destruct data as [i f l e p a ca ua]. simpl in H.
  unfold fromJSON, toJSON, newContact, copyDate. simpl.
  destruct i as [|ch i]; [contradiction | reflexivity].
Qed.

(** X3.  The full name of a contact with one name empty is the other name,
    trimmed: the space between the names does not stay. *)
Theorem getFullName_one_name (c : Contact) :
  (lastName c = EmptyString -> getFullName c = trim (firstName c)) /\
  (firstName c = EmptyString -> getFullName c = trim (lastName c)).
Proof.
  unfold getFullName. split; intros ->.
  - apply trim_append_space.
  - reflexivity.
Qed.

(** X4.  For the term [searchContacts] looks for (a query that is not white
    space, in lower case, trimmed), the tests on the first name and on the
    last name add nothing: a contact passes the filter exactly when its
    e-mail address or its full name contains the term. *)
Theorem matchesTerm_full_name (query : string) (c : Contact) :
  truthy (trim query) = true ->
  matchesTerm (trim (toLowerCase query)) c =
  includes (toLowerCase (email c)) (trim (toLowerCase query)) ||
  includes (toLowerCase (getFullName c)) (trim (toLowerCase query)).
Proof.
  intros T. set (term := trim (toLowerCase query)).
  assert (Hne : term <> EmptyString).
  { unfold term. rewrite trim_toLowerCase. intros E.
    apply truthy_true in T. apply T. now apply toLowerCase_empty. }
  assert (Hl : noLeadingSpace term)
    by apply trimEnd_noLeadingSpace, trimStart_noLeadingSpace.
  assert (Ht : trimEnd term = term) by apply trimEnd_idem.
  assert (Full : forall s, Substring term s ->
                   (s = toLowerCase (firstName c) \/ s = toLowerCase (lastName c)) ->
                   Substring term (toLowerCase (getFullName c))).
  { intros s Hs Hc. unfold getFullName.
    rewrite <- trim_toLowerCase, !toLowerCase_append.
    apply Substring_trim; try assumption.
    destruct Hc as [->| ->].
    - now apply Substring_append_l.
    - now apply Substring_append_r, Substring_append_r. }
  unfold matchesTerm. fold term.
  destruct (includes (toLowerCase (getFullName c)) term) eqn:F.
  - now rewrite !orb_true_r.
  - assert (N : forall s, (s = toLowerCase (firstName c) \/
                           s = toLowerCase (lastName c)) ->
                          includes s term = false).
    { intros s Hc. destruct (includes s term) eqn:I; [|reflexivity].
      apply includes_spec in I. apply (Full s I) in Hc.
      apply includes_spec in Hc. congruence. }
    rewrite (N _ (or_introl eq_refl)), (N _ (or_intror eq_refl)). reflexivity.
Qed.

(* ================================================================= *)
(** ** More about the manager, for any persistence port *)

Section Further.

Context {S : Type} {port : IContactStorage S}.

Implicit Types (w : World S) (l : Loc) (q i : string).

Lemma find_all_false {A : Type} (p : A -> bool) (xs : list A) :
  (forall x, In x xs -> p x = false) -> find p xs = None.
Proof.
  induction xs as [|x xs IH]; simpl; intros H; [reflexivity|].
  rewrite (H x (or_introl eq_refl)). apply IH. intros y Hy. apply H. now right.
Qed.

Lemma find_last {A : Type} (p : A -> bool) (xs : list A) (y : A) :
  (forall x, In x xs -> p x = false) -> p y = true ->
  find p (xs ++ [y])%list = Some y.
Proof.
  induction xs as [|x xs IH]; simpl; intros H Hy; [now rewrite Hy|].
  rewrite (H x (or_introl eq_refl)). apply IH; [|exact Hy].
  intros z Hz. apply H. now right.
Qed.

Lemma addContact_found (data : ContactData) w x :
  findByEmail (new_email data) w = Some x ->
  addContact data w = (Throw DuplicateEmail, w).
Proof. intros H. unfold addContact, bind, gets. now rewrite H. Qed.

(** The first element with the key [i], in a list without two equal keys. *)
Lemma first_with_key (g : Loc -> string) i (xs : list Loc) l :
  find (fun x => g x =? i) xs = Some l ->
  NoDup (map g xs) ->
  exists k,
    findIndex (fun x => g x =? i) xs = Some k /\
    List.length (splice1 k xs) + 1 = List.length xs /\
    (forall x, In x (splice1 k xs) <-> In x xs /\ x <> l) /\
    (forall x, In x (splice1 k xs) -> g x <> i).
Proof.
  induction xs as [|a xs IH]; simpl; intros F N; [discriminate|].
  inversion N as [|? ? Ha N']; subst.
  destruct (g a =? i) eqn:E.
  - injection F as <-. apply String.eqb_eq in E. exists 0. simpl.
    split; [reflexivity|]. split; [lia|]. split.
    + intros x. split.
      * intros Hx. split; [now right|]. intros ->. apply Ha. now apply in_map.
      * intros [[->|Hx] Hne]; [contradiction | exact Hx].
    + intros x Hx Ex. apply Ha. rewrite E, <- Ex. now apply in_map.
  - destruct (IH F N') as (k & Hk & Hlen & Hin & Hkey).
    exists (Datatypes.S k). rewrite Hk. simpl.
    split; [reflexivity|]. split; [lia|]. split.
    + intros x. rewrite Hin. split.
      * intros [<-|[Hx Hne]]; [|tauto]. split; [now left|].
        intros ->. apply find_some in F as [_ F]. congruence.
      * intros [[->|Hx] Hne]; [now left | right; tauto].
    + intros x [<-|Hx]; [now apply String.eqb_neq | now apply Hkey].
Qed.

(** What [finish] leaves in the log and in the store when it returns. *)
Lemma finish_ok_port {A : Type} (a b : A) w w' :
  finish a w = (Ok b, w') ->
  fst (save (deref w (contacts w)) (storage w)) = Ok tt /\
  storage w' = snd (save (deref w (contacts w)) (storage w)) /\
  portCalls w' = CallSave (deref w (contacts w)) :: portCalls w.
Proof.
  unfold finish, bind. rewrite saveContacts_eq.
  destruct (fst (save (deref w (contacts w)) (storage w))) as [[]|e]; [|discriminate].
  match goal with |- context [applyCurrentFilter ?x] =>
    destruct (applyCurrentFilter_spec x) as [found [-> _]] end.
  unfold ret. intros H. injection H as _ <-. now repeat split.
Qed.

(** A mutation that returned has saved, once, the canonical collection it
    leaves. *)
Lemma mutation_save w w' :
  Mutation w w' ->
  fst (save (deref w' (contacts w')) (storage w)) = Ok tt /\
  storage w' = snd (save (deref w' (contacts w')) (storage w)) /\
  portCalls w' = CallSave (deref w' (contacts w')) :: portCalls w.
Proof.
  intros [data l H | i u l H | i H].
  - pose proof (addContact_ok _ _ _ _ H) as E.
    rewrite (addContact_run data w E) in H.
    destruct (pushed_spec data w) as (_ & _ & _ & _ & Hs & _ & Hp).
    destruct (finish_frame (next w) (pushed data w)) as (Fh & _ & Fc & _).
    rewrite H in Fh, Fc. cbn [snd] in Fh, Fc.
    apply finish_ok_port in H. unfold deref in *. now rewrite Fh, Fc, <- Hs, <- Hp.
  - destruct (updateContact_ok _ _ _ _ _ H) as (l0 & E & V).
    rewrite (updateContact_run i u w l0 E V) in H.
    destruct (updated_spec l0 u w) as (_ & _ & _ & _ & Hs & _ & Hp).
    destruct (finish_frame l0 (updated l0 u w)) as (Fh & _ & Fc & _).
    rewrite H in Fh, Fc. cbn [snd] in Fh, Fc.
    apply finish_ok_port in H. unfold deref in *. now rewrite Fh, Fc, <- Hs, <- Hp.
  - destruct (deleteContact_ok _ _ _ H) as [k E].
    rewrite (deleteContact_run i w k E) in H.
    destruct (finish_frame true (spliced k w)) as (Fh & _ & Fc & _).
    rewrite H in Fh, Fc. cbn [snd] in Fh, Fc.
    apply finish_ok_port in H. unfold deref in *. now rewrite Fh, Fc.
Qed.

(** *** Searching *)

(** X5.  The case of the query does not matter: two queries that are equal
    in lower case give the same filtered view. *)
Theorem searchContacts_any_case q1 q2 w :
  toLowerCase q1 = toLowerCase q2 ->
  searchContacts q1 w = searchContacts q2 w.
Proof.
  intros E. rewrite !searchContacts_eq.
  assert (T : trim (toLowerCase q1) = trim (toLowerCase q2)) by now rewrite E.
  assert (B : truthy (trim q1) = truthy (trim q2)).
  { rewrite <- (truthy_toLowerCase (trim q1)), <- (truthy_toLowerCase (trim q2)).
    now rewrite <- !trim_toLowerCase, T. }
  now rewrite B, T.
Qed.

(** X6.  A search does not build on the search before it: the filtered view
    after two searches is that of the second one alone. *)
Theorem searchContacts_last_wins q1 q2 w :
  searchContacts q2 (snd (searchContacts q1 w)) = searchContacts q2 w.
Proof. rewrite (searchContacts_eq q1 w), !searchContacts_eq. reflexivity. Qed.

(** X7.  [findByEmail] finds a record exactly when a record of the canonical
    collection holds the address, compared without regard to case, and the
    record it finds holds it. *)
Theorem findByEmail_spec (e : string) w :
  match findByEmail e w with
  | Some l => In l (contacts w) /\ SameEmail (email (heap w l)) e
  | None => forall l, In l (contacts w) -> ~ SameEmail (email (heap w l)) e
  end.
Proof.
  unfold findByEmail, SameEmail.
  destruct (find _ (contacts w)) as [l|] eqn:F.
  - apply find_some in F as [Hin E]. split; [exact Hin | now apply String.eqb_eq].
  - intros l Hl. apply String.eqb_neq. exact (find_none _ _ F l Hl).
Qed.

(** *** Updating *)

(** X8.  When no record of the canonical collection has the id,
    [updateContact] throws NotFound and the world is what it was: nothing
    is changed and the persistence port is not called. *)
Theorem updateContact_unknown i (u : ContactUpdate) w :
  (forall l, In l (contacts w) -> id (heap w l) <> i) ->
  updateContact i u w = (Throw NotFound, w).
Proof.
  intros H. apply updateContact_not_found. unfold findById.
  apply find_all_false. intros l Hl. apply String.eqb_neq. now apply H.
Qed.

(** X9.  In a directory with unique e-mail addresses, an update whose
    e-mail address is not the empty string and is held, in any case, by a
    record with another id throws DuplicateEmail, and the world is what it
    was: the record is not changed and the persistence port is not called. *)
Theorem updateContact_duplicate i (e : string) (u : ContactUpdate) w l x :
  findById i w = Some l ->
  upd_email u = Some e ->
  e <> EmptyString ->
  In x (contacts w) ->
  SameEmail (email (heap w x)) e ->
  id (heap w x) <> i ->
  EmailsUnique (deref w (contacts w)) ->
  updateContact i u w = (Throw DuplicateEmail, w).
Proof.
  intros F Hu Hne Hx Hsame Hid U.
  apply (updateContact_invalid i u w l DuplicateEmail F).
  destruct (find_some _ _ F) as [Hl Il]. apply String.eqb_eq in Il.
  unfold EmailsUnique, deref in U. rewrite map_map in U.
  unfold validateEmail, bind, gets, throw, ret. rewrite Hu. simpl.
  apply truthy_true in Hne. rewrite Hne. simpl.
  destruct (e =? email (heap w l)) eqn:E.
  - apply String.eqb_eq in E. exfalso. apply Hid.
    assert (x = l) as ->; [|exact Il].
    apply (NoDup_map_eq _ _ x l U Hx Hl). simpl. unfold SameEmail in Hsame.
    congruence.
  - simpl.
    destruct (find_first
                (fun c => toLowerCase (email (heap w c)) =? toLowerCase e)
                (contacts w) x Hx) as [y Hy]; [now apply String.eqb_eq|].
    unfold findByEmail. rewrite Hy.
    apply find_some in Hy as [Hyin Ey]. apply String.eqb_eq in Ey.
    assert (y = x) as ->.
    { apply (NoDup_map_eq _ _ y x U Hyin Hx). simpl. unfold SameEmail in Hsame.
      congruence. }
    apply String.eqb_neq in Hid. now rewrite Hid.
Qed.

(** *** Adding *)

Lemma construct_fields (data : ContactData) (o : Oracle) :
  firstName (fst (construct data o)) = new_firstName data /\
  lastName (fst (construct data o)) = new_lastName data /\
  email (fst (construct data o)) = new_email data /\
  phone (fst (construct data o)) = new_phone data /\
  address (fst (construct data o)) = new_address data.
Proof. unfold construct, newContact, generateId. simpl. now repeat split. Qed.

(** X10.  [addContact] with an e-mail address that no record holds, a store
    that takes the save and a generated id that no record has: the call
    returns the new record, which is the last of the canonical collection
    and holds the five fields as they were passed, and [findById] with its
    id finds it. *)
Theorem addContact_then_findById (data : ContactData) w :
  Allocated w ->
  findByEmail (new_email data) w = None ->
  Accepts (storage w) ->
  (forall l, In l (contacts w) ->
             id (heap w l) <> id (fst (construct data (oracle w)))) ->
  fst (addContact data w) = Ok (next w) /\
  contacts (snd (addContact data w)) = (contacts w ++ [next w])%list /\
  findById (id (heap (snd (addContact data w)) (next w))) (snd (addContact data w))
    = Some (next w) /\
  firstName (heap (snd (addContact data w)) (next w)) = new_firstName data /\
  lastName (heap (snd (addContact data w)) (next w)) = new_lastName data /\
  email (heap (snd (addContact data w)) (next w)) = new_email data /\
  phone (heap (snd (addContact data w)) (next w)) = new_phone data /\
  address (heap (snd (addContact data w)) (next w)) = new_address data.
Proof.
  intros WF F A Fresh. rewrite (addContact_run data w F).
  destruct (pushed_spec data w) as (Hh & _ & Hc & _ & Hs & _).
  destruct (finish_frame (next w) (pushed data w)) as (Fh & _ & Fc & _).
  destruct (construct_fields data (oracle w)) as (C1 & C2 & C3 & C4 & C5).
  split; [rewrite finish_result, Hs, A; reflexivity|].
  split; [now rewrite Fc|].
  unfold findById. rewrite Fh, Fc, Hh, Hc, store_same.
  split; [|now repeat split].
  apply find_last.
  - intros x Hx. apply String.eqb_neq. rewrite store_other.
    + now apply Fresh.
    + apply WF in Hx. lia.
  - rewrite store_same. apply String.eqb_refl.
Qed.

(** *** Ids *)

Lemma map_store_key {B : Type} (f : Contact -> B) (h : Loc -> Contact) l
    (c : Contact) (xs : list Loc) :
  f c = f (h l) ->
  map (fun x => f (store h l c x)) xs = map (fun x => f (h x)) xs.
Proof.
  intros E. apply map_ext. intros x. unfold store.
  destruct (Nat.eqb x l) eqn:X; [|reflexivity].
  apply Nat.eqb_eq in X. now subst x.
Qed.

(** X11.  From a directory with unique ids, every operation of the manager
    leads to a directory with unique ids, whether it returns or throws; for
    [addContact], when the generated id is not the id of a record. *)
Theorem ids_unique_preserved w :
  Allocated w ->
  IdsUnique (deref w (contacts w)) ->
  (forall data : ContactData,
      (forall l, In l (contacts w) ->
                 id (heap w l) <> id (fst (construct data (oracle w)))) ->
      IdsUnique (deref (snd (addContact data w))
                       (contacts (snd (addContact data w))))) /\
  (forall i (u : ContactUpdate),
      IdsUnique (deref (snd (updateContact i u w))
                       (contacts (snd (updateContact i u w))))) /\
  (forall i,
      IdsUnique (deref (snd (deleteContact i w))
                       (contacts (snd (deleteContact i w))))) /\
  (forall q,
      IdsUnique (deref (snd (searchContacts q w))
                       (contacts (snd (searchContacts q w))))) /\
  IdsUnique (deref (snd (clearAllContacts w))
                   (contacts (snd (clearAllContacts w)))).
Proof.
  intros WF U. repeat apply conj.
  - intros data Fresh. destruct (findByEmail (new_email data) w) as [x|] eqn:F.
    + now rewrite (addContact_found data w x F).
    + rewrite (addContact_run data w F).
      destruct (finish_frame (next w) (pushed data w)) as (Fh & _ & Fc & _).
      unfold deref at 1. rewrite Fh, Fc.
      change (map (heap (pushed data w)) (contacts (pushed data w)))
        with (deref (pushed data w) (contacts (pushed data w))).
      rewrite (pushed_deref data w WF).
      apply NoDup_map_snoc; [exact U|].
      unfold deref. rewrite map_map, in_map_iff. intros [x [Ex Hx]].
      now apply (Fresh x Hx).
  - intros i u. destruct (findById i w) as [l|] eqn:F.
    2: { now rewrite (updateContact_not_found i u w F). }
    destruct (fst (validateEmail i l u w)) as [[]|x] eqn:V.
    2: { now rewrite (updateContact_invalid i u w l x F V). }
    rewrite (updateContact_run i u w l F V).
    destruct (updated_spec l u w) as (Hh & _ & Hc & _).
    destruct (finish_frame l (updated l u w)) as (Fh & _ & Fc & _).
    unfold deref at 1. rewrite Fh, Fc, Hh, Hc.
    unfold IdsUnique, deref in *. rewrite map_map in *.
    now rewrite (map_store_key id).
  - intros i.
    destruct (findIndex (fun contact => id (heap w contact) =? i) (contacts w))
      as [k|] eqn:F.
    + rewrite (deleteContact_run i w k F).
      destruct (finish_frame true (spliced k w)) as (Fh & _ & Fc & _).
      unfold deref. rewrite Fh, Fc. simpl.
      unfold IdsUnique, deref in *. rewrite map_map in *.
      now apply NoDup_map_splice1.
    + unfold deleteContact, bind, gets. rewrite F. exact U.
  - intros q. rewrite searchContacts_eq. exact U.
  - unfold clearAllContacts, bind, modify. simpl.
    destruct (clear (storage w)). simpl. constructor.
Qed.

(** X12.  No operation of the manager leaves a record with an empty id in
    the canonical collection, if there was none before. *)
Theorem ids_nonempty_preserved w :
  Allocated w ->
  Forall (fun c => id c <> EmptyString) (deref w (contacts w)) ->
  (forall data : ContactData,
      Forall (fun c => id c <> EmptyString)
             (deref (snd (addContact data w))
                    (contacts (snd (addContact data w))))) /\
  (forall i (u : ContactUpdate),
      Forall (fun c => id c <> EmptyString)
             (deref (snd (updateContact i u w))
                    (contacts (snd (updateContact i u w))))) /\
  (forall i,
      Forall (fun c => id c <> EmptyString)
             (deref (snd (deleteContact i w))
                    (contacts (snd (deleteContact i w))))) /\
  (forall q,
      Forall (fun c => id c <> EmptyString)
             (deref (snd (searchContacts q w))
                    (contacts (snd (searchContacts q w))))) /\
  Forall (fun c => id c <> EmptyString)
         (deref (snd (clearAllContacts w))
                (contacts (snd (clearAllContacts w)))).
Proof.
  intros WF U. repeat apply conj.
  - intros data. destruct (findByEmail (new_email data) w) as [x|] eqn:F.
    + now rewrite (addContact_found data w x F).
    + rewrite (addContact_run data w F).
      destruct (finish_frame (next w) (pushed data w)) as (Fh & _ & Fc & _).
      unfold deref at 1. rewrite Fh, Fc.
      change (map (heap (pushed data w)) (contacts (pushed data w)))
        with (deref (pushed data w) (contacts (pushed data w))).
      rewrite (pushed_deref data w WF).
      apply Forall_app. split; [exact U|]. constructor; [|constructor].
      apply newContact_id_nonempty.
  - intros i u. destruct (findById i w) as [l|] eqn:F.
    2: { now rewrite (updateContact_not_found i u w F). }
    destruct (fst (validateEmail i l u w)) as [[]|x] eqn:V.
    2: { now rewrite (updateContact_invalid i u w l x F V). }
    rewrite (updateContact_run i u w l F V).
    destruct (updated_spec l u w) as (Hh & _ & Hc & _).
    destruct (finish_frame l (updated l u w)) as (Fh & _ & Fc & _).
    unfold deref at 1. rewrite Fh, Fc, Hh, Hc.
    unfold deref in U. rewrite Forall_map in *.
    eapply Forall_impl; [|exact U]. intros x Hx. simpl in *. unfold store.
    destruct (Nat.eqb x l) eqn:X; [|exact Hx].
    apply Nat.eqb_eq in X. subst x. exact Hx.
  - intros i.
    destruct (findIndex (fun contact => id (heap w contact) =? i) (contacts w))
      as [k|] eqn:F.
    + rewrite (deleteContact_run i w k F).
      destruct (finish_frame true (spliced k w)) as (Fh & _ & Fc & _).
      unfold deref. rewrite Fh, Fc. simpl.
      unfold deref in U. rewrite Forall_map in *. rewrite Forall_forall in *.
      intros x Hx. apply U. now apply splice1_In in Hx.
    + unfold deleteContact, bind, gets. rewrite F. exact U.
  - intros q. rewrite searchContacts_eq. exact U.
  - unfold clearAllContacts, bind, modify. simpl.
    destruct (clear (storage w)). simpl. constructor.
Qed.

(** *** Deleting *)

Lemma deleteContact_first i w l :
  findById i w = Some l ->
  IdsUnique (deref w (contacts w)) ->
  exists k,
    deleteContact i w = finish true (spliced k w) /\
    List.length (splice1 k (contacts w)) + 1 = List.length (contacts w) /\
    (forall x, In x (splice1 k (contacts w)) <-> In x (contacts w) /\ x <> l) /\
    (forall x, In x (splice1 k (contacts w)) -> id (heap w x) <> i).
Proof.
  intros F U. unfold IdsUnique, deref in U. rewrite map_map in U.
  destruct (first_with_key (fun x => id (heap w x)) i (contacts w) l F U)
    as (k & Hk & Hlen & Hin & Hkey).
  exists k. split; [now apply deleteContact_run|].
  split; [exact Hlen|]. split; [exact Hin | exact Hkey].
Qed.

(** X13.  [deleteContact] with the id of a record, in a directory with
    unique ids: one record leaves the canonical collection, the one
    [findById] finds; the others stay, and no object is changed;
    afterwards [findById] finds nothing for the id.  The call returns true
    when the store takes the save. *)
Theorem deleteContact_removes i w l :
  findById i w = Some l ->
  IdsUnique (deref w (contacts w)) ->
  List.length (contacts (snd (deleteContact i w))) + 1 = List.length (contacts w) /\
  (forall x, In x (contacts (snd (deleteContact i w))) <->
             In x (contacts w) /\ x <> l) /\
  heap (snd (deleteContact i w)) = heap w /\
  findById i (snd (deleteContact i w)) = None /\
  (Accepts (storage w) -> fst (deleteContact i w) = Ok true).
Proof.
  intros F U.
  destruct (deleteContact_first i w l F U) as (k & -> & Hlen & Hin & Hkey).
  destruct (finish_frame true (spliced k w)) as (Fh & _ & Fc & _).
  unfold findById. rewrite Fh, Fc. simpl.
  split; [exact Hlen|]. split; [exact Hin|]. split; [reflexivity|]. split.
  - apply find_all_false. intros x Hx. apply String.eqb_neq. now apply Hkey.
  - intros A. rewrite finish_result. simpl. now rewrite A.
Qed.

(** X14.  When the save throws, [deleteContact] does not compute the
    filtered view again: a record that was in the filtered view is still
    there after it has left the canonical collection. *)
Theorem deleteContact_stale_view i w l (e : Error) :
  findById i w = Some l ->
  IdsUnique (deref w (contacts w)) ->
  Rejects (storage w) e ->
  In l (filteredContacts w) ->
  fst (deleteContact i w) = Throw e /\
  ~ In l (contacts (snd (deleteContact i w))) /\
  In l (filteredContacts (snd (deleteContact i w))).
Proof.
  intros F U R Hl.
  destruct (deleteContact_first i w l F U) as (k & -> & _ & Hin & _).
  destruct (finish_frame true (spliced k w)) as (_ & _ & Fc & _).
  destruct (finish_throw true (spliced k w) e) as (Ht & Ff & _); [apply R|].
  split; [exact Ht|]. split.
  - rewrite Fc. simpl. rewrite Hin. tauto.
  - now rewrite Ff.
Qed.

(** *** The persistence port *)

(** X15.  A mutation that returned has called the port once, to save, and
    what it saved is the canonical collection as the mutation leaves it;
    the store is in the state that save left. *)
Theorem mutation_saves_once w w' :
  Mutation w w' ->
  fst (save (deref w' (contacts w')) (storage w)) = Ok tt /\
  storage w' = snd (save (deref w' (contacts w')) (storage w)) /\
  portCalls w' = CallSave (deref w' (contacts w')) :: portCalls w.
Proof. exact (mutation_save w w'). Qed.

(** The objects [allocAll] builds are new, one after the other. *)
Lemma allocAll_spec (cs : list Contact) w :
  exists w',
    allocAll cs w = (Ok (seq (next w) (List.length cs)), w') /\
    next w' = next w + List.length cs /\
    map (heap w') (seq (next w) (List.length cs)) = cs /\
    (forall l, l < next w -> heap w' l = heap w l) /\
    contacts w' = contacts w /\ filteredContacts w' = filteredContacts w /\
    storage w' = storage w /\ searchInput w' = searchInput w /\
    oracle w' = oracle w /\ portCalls w' = portCalls w.
Proof.
  revert w. induction cs as [|c cs IH]; intros w.
  - exists w. simpl. unfold ret. repeat split. lia.
  - cbn [allocAll]. unfold bind, alloc.
    match goal with |- context [allocAll cs ?x] =>
      destruct (IH x) as (w' & E & Hn & Hm & Hh & Hc & Hf & Hs & Hi & Ho & Hp) end.
    simpl in *. exists w'. rewrite E. unfold ret.
    split; [reflexivity|]. split; [lia|]. split.
    + f_equal; [|exact Hm]. rewrite Hh by lia. apply store_same.
    + split; [|now repeat split].
      intros l Hl. rewrite Hh by lia. apply store_other. lia.
Qed.

Lemma newContactManager_ok (st : S) w (cs : list Contact) (s : S) (o : Oracle) :
  load st (oracle w) = (Ok cs, s, o) ->
  fst (newContactManager st w) = Ok tt /\
  contacts (snd (newContactManager st w)) = seq (next w) (List.length cs) /\
  deref (snd (newContactManager st w)) (contacts (snd (newContactManager st w))) = cs /\
  filteredContacts (snd (newContactManager st w)) =
    contacts (snd (newContactManager st w)) /\
  next (snd (newContactManager st w)) = next w + List.length cs /\
  storage (snd (newContactManager st w)) = s /\
  portCalls (snd (newContactManager st w)) = CallLoad :: portCalls w.
Proof.
  intros L. unfold newContactManager, bind, modify, loadContacts. simpl. rewrite L.
  unfold bind, modify.
  match goal with |- context [allocAll cs ?x] =>
    destruct (allocAll_spec cs x) as (w' & E & Hn & Hm & _ & _ & _ & Hs & _ & _ & Hp)
  end.
  simpl in *. rewrite E. simpl. unfold deref. simpl. now repeat split.
Qed.


(** X17.  [clearAllContacts] empties the canonical collection and the
    filtered view before it calls [clear] on the port, once: they are empty
    also when [clear] throws, and the call returns or throws as [clear]
    does. *)
Theorem clearAllContacts_empties w :
  contacts (snd (clearAllContacts w)) = [] /\
  filteredContacts (snd (clearAllContacts w)) = [] /\
  fst (clearAllContacts w) = fst (clear (storage w)) /\
  storage (snd (clearAllContacts w)) = snd (clear (storage w)) /\
  portCalls (snd (clearAllContacts w)) = CallClear :: portCalls w /\
  heap (snd (clearAllContacts w)) = heap w.
Proof.
  unfold clearAllContacts, bind, modify. simpl.
  destruct (clear (storage w)). simpl. now repeat split.
Qed.

End Further.

(* ================================================================= *)
(** ** More about the manager over [localStorage] *)



Lemma LocalStorageManager_save_ok (cs : list Contact) (ls : LocalStorage) :
  fst (save cs ls) = Ok tt ->
  item (snd (save cs ls)) = Stored (map toJSON cs).
Proof.
  simpl. unfold LocalStorageManager_save.
  now destruct (accepts ls (map toJSON cs)).
Qed.

Lemma LocalStorageManager_save_throw (cs : list Contact) (ls : LocalStorage) (e : Error) :
  fst (save cs ls) = Throw e -> snd (save cs ls) = ls.
Proof.
  simpl. unfold LocalStorageManager_save.
  now destruct (accepts ls (map toJSON cs)).
Qed.



(** X19.  After a mutation that returned, the browser holds the canonical
    collection, record by record in its order. *)
Theorem mutation_stores_directory (w w' : World LocalStorage) :
  Mutation w w' ->
  item (storage w') = Stored (map toJSON (deref w' (contacts w'))).
Proof.
  intros H. destruct (mutation_save w w' H) as (Hok & -> & _).
  now apply LocalStorageManager_save_ok.
Qed.


(** X21.  A new manager over a browser in which nothing is stored, or text
    that does not parse, does not throw and starts with an empty directory;
    and [clearAllContacts] returns and leaves the browser with nothing
    stored. *)
Theorem newContactManager_nothing_stored :
  (forall (ls : LocalStorage) (v : World LocalStorage),
      item ls = Missing \/ item ls = Malformed ->
      fst (newContactManager ls v) = Ok tt /\
      contacts (snd (newContactManager ls v)) = [] /\
      filteredContacts (snd (newContactManager ls v)) = []) /\
  (forall w : World LocalStorage,
      fst (clearAllContacts w) = Ok tt /\
      item (storage (snd (clearAllContacts w))) = Missing).
Proof.
  split.
  - intros ls v H.
    assert (L : load ls (oracle v) = (Ok [], ls, oracle v)).
    { simpl. unfold LocalStorageManager_load. now destruct H as [-> | ->]. }
    destruct (newContactManager_ok ls v _ _ _ L) as (R & Hc & _ & Hf & _).
    rewrite Hf, Hc. now repeat split.
  - intros w. unfold clearAllContacts, bind, modify. simpl. now split.
Qed.

(** X22.  A mutation that throws leaves in the browser what was there: the
    directory as it was last saved, also when the canonical collection in
    memory has changed. *)
Theorem failed_mutation_keeps_store (w : World LocalStorage) (e : Error) :
  (forall data : ContactData,
      fst (addContact data w) = Throw e ->
      storage (snd (addContact data w)) = storage w) /\
  (forall i (u : ContactUpdate),
      fst (updateContact i u w) = Throw e ->
      storage (snd (updateContact i u w)) = storage w) /\
  (forall i,
      fst (deleteContact i w) = Throw e ->
      storage (snd (deleteContact i w)) = storage w).
Proof.
  assert (K : forall (A : Type) (a : A) (w1 : World LocalStorage),
             fst (finish a w1) = Throw e ->
             storage (snd (finish a w1)) = storage w1).
  { intros A a w1 H. rewrite finish_result in H.
    destruct (fst (save (deref w1 (contacts w1)) (storage w1))) as [[]|x] eqn:E;
      [discriminate|].
    unfold finish, bind. rewrite saveContacts_eq, E. simpl.
    now apply (LocalStorageManager_save_throw _ _ x). }
  repeat apply conj.
  - intros data H. destruct (findByEmail (new_email data) w) as [x|] eqn:F.
    + now rewrite (addContact_found data w x F).
    + rewrite (addContact_run data w F) in *. rewrite (K _ _ _ H).
      now destruct (pushed_spec data w) as (_ & _ & _ & _ & Hs & _).
  - intros i u H. destruct (findById i w) as [l|] eqn:F.
    2: { now rewrite (updateContact_not_found i u w F). }
    destruct (fst (validateEmail i l u w)) as [[]|x] eqn:V.
    2: { now rewrite (updateContact_invalid i u w l x F V). }
    rewrite (updateContact_run i u w l F V) in *. rewrite (K _ _ _ H).
    now destruct (updated_spec l u w) as (_ & _ & _ & _ & Hs & _).
  - intros i H.
    destruct (findIndex (fun contact => id (heap w contact) =? i) (contacts w))
      as [k|] eqn:F.
    + rewrite (deleteContact_run i w k F) in *. now rewrite (K _ _ _ H).
    + unfold deleteContact, bind, gets in *. now rewrite F in *.
Qed.

(* ================================================================= *)
(** ** The handlers of the page *)

Section Handlers.

Context {S : Type} {port : IContactStorage S}.

Implicit Types (w : World S) (l : Loc) (i : string) (ui : UIState).

(** After a mutation that returned, the filtered view follows the text of
    the search box, which the mutation did not change. *)
Lemma mutation_view w w' :
  Mutation w w' ->
  pageQuery w' = pageQuery w /\ ViewFollows (pageQuery w) w'.
Proof.
  intros [data l H | i u l H | i H].
  - pose proof (addContact_ok _ _ _ _ H) as E.
    rewrite (addContact_run data w E) in H.
    destruct (pushed_spec data w) as (_ & _ & _ & _ & _ & Hi & _).
    destruct (finish_frame (next w) (pushed data w)) as (_ & _ & _ & Fi & _).
    rewrite H in Fi. cbn [snd] in Fi. apply finish_ok in H as [_ F].
    unfold pageQuery in *. rewrite Hi in Fi, F. rewrite Fi. now split.
  - destruct (updateContact_ok _ _ _ _ _ H) as (l0 & E & V).
    rewrite (updateContact_run i u w l0 E V) in H.
    destruct (updated_spec l0 u w) as (_ & _ & _ & _ & _ & Hi & _).
    destruct (finish_frame l0 (updated l0 u w)) as (_ & _ & _ & Fi & _).
    rewrite H in Fi. cbn [snd] in Fi. apply finish_ok in H as [_ F].
    unfold pageQuery in *. rewrite Hi in Fi, F. rewrite Fi. now split.
  - destruct (deleteContact_ok _ _ _ H) as [k E].
    rewrite (deleteContact_run i w k E) in H.
    destruct (finish_frame true (spliced k w)) as (_ & _ & _ & Fi & _).
    rewrite H in Fi. cbn [snd] in Fi. apply finish_ok in H as [_ F].
    unfold pageQuery in *. simpl in Fi, F. rewrite Fi. now split.
Qed.

Lemma handleFormSubmit_add (form : FormValues) ui w :
  pendingId (currentEditingId ui) = None ->
  handleFormSubmit form ui w =
  (match fst (addContact (readForm form) w) with
   | Ok _ => resetForm (showMessage "Contact added successfully!" MsgSuccess ui)
   | Throw e => showMessage (errorMessage e) MsgError ui
   end, snd (addContact (readForm form) w)).
Proof.
  intros H. unfold handleFormSubmit. rewrite H.
  now destruct (addContact (readForm form) w) as [[a|e] w'].
Qed.

Lemma handleFormSubmit_edit (form : FormValues) ui w i :
  pendingId (currentEditingId ui) = Some i ->
  handleFormSubmit form ui w =
  (match fst (updateContact i (asUpdate (readForm form)) w) with
   | Ok _ => resetForm (showMessage "Contact updated successfully!" MsgSuccess ui)
   | Throw e => showMessage (errorMessage e) MsgError ui
   end, snd (updateContact i (asUpdate (readForm form)) w)).
Proof.
  intros H. unfold handleFormSubmit. rewrite H.
  now destruct (updateContact i (asUpdate (readForm form)) w) as [[a|e] w'].
Qed.

Lemma orUndefined_nonempty (value : string) : orUndefined value <> Some EmptyString.
Proof. unfold orUndefined. now destruct value. Qed.

(** X23.  The form is submitted for a new contact whose e-mail address a
    record holds, in any case: the page shows the message of the error,
    "A contact with this email already exists", and nothing else changes,
    neither in the directory nor in the state of the page. *)
Theorem handleFormSubmit_duplicate (form : FormValues) ui w l :
  pendingId (currentEditingId ui) = None ->
  In l (contacts w) ->
  SameEmail (email (heap w l)) (form_email form) ->
  handleFormSubmit form ui w =
  (showMessage "A contact with this email already exists" MsgError ui, w).
Proof.
  intros H Hl Hs. rewrite (handleFormSubmit_add form ui w H).
  destruct (find_first
              (fun c => toLowerCase (email (heap w c)) =?
                        toLowerCase (form_email form))
              (contacts w) l Hl) as [y Hy]; [now apply String.eqb_eq|].
  now rewrite (addContact_found (readForm form) w y Hy).
Qed.

(** X24.  The form is submitted for a new contact whose e-mail address no
    record holds, and the store takes the save: the page shows "Contact
    added successfully!", the record is the last of the canonical
    collection, and a field for phone or address that was left blank is
    [undefined] in the record, never the empty string. *)
Theorem handleFormSubmit_adds (form : FormValues) ui w :
  pendingId (currentEditingId ui) = None ->
  findByEmail (form_email form) w = None ->
  Accepts (storage w) ->
  fst (handleFormSubmit form ui w) =
    resetForm (showMessage "Contact added successfully!" MsgSuccess ui) /\
  contacts (snd (handleFormSubmit form ui w)) = (contacts w ++ [next w])%list /\
  email (heap (snd (handleFormSubmit form ui w)) (next w)) = form_email form /\
  phone (heap (snd (handleFormSubmit form ui w)) (next w))
    = orUndefined (form_phone form) /\
  address (heap (snd (handleFormSubmit form ui w)) (next w))
    = orUndefined (form_address form) /\
  phone (heap (snd (handleFormSubmit form ui w)) (next w)) <> Some EmptyString /\
  address (heap (snd (handleFormSubmit form ui w)) (next w)) <> Some EmptyString.
Proof.
  intros H F A. rewrite (handleFormSubmit_add form ui w H). cbn [fst snd].
  change (form_email form) with (new_email (readForm form)) in F.
  rewrite (addContact_run (readForm form) w F).
  destruct (pushed_spec (readForm form) w) as (Hh & _ & Hc & _ & Hs & _).
  destruct (finish_frame (next w) (pushed (readForm form) w)) as (Fh & _ & Fc & _).
  destruct (construct_fields (readForm form) (oracle w)) as (_ & _ & C3 & C4 & C5).
  rewrite finish_result, Hs, A, Fh, Fc, Hh, Hc, store_same, C3, C4, C5.
  simpl. repeat split; apply orUndefined_nonempty.
Qed.

(** X25.  A contact is edited and the form is submitted with the e-mail
    address the record has: the check for duplicates is not made, so, when
    the store takes the save, the page shows "Contact updated
    successfully!", leaves the editing mode, and the record holds the five
    fields of the form (blank phone and address as [undefined]) with its id
    and createdAt kept. *)
Theorem handleFormSubmit_edit_same_email (form : FormValues) ui w i l :
  currentEditingId ui = Some i ->
  i <> EmptyString ->
  findById i w = Some l ->
  form_email form = email (heap w l) ->
  Accepts (storage w) ->
  fst (handleFormSubmit form ui w) =
    resetForm (showMessage "Contact updated successfully!" MsgSuccess ui) /\
  heap (snd (handleFormSubmit form ui w)) l =
    {| id := id (heap w l);
       firstName := form_firstName form;
       lastName := form_lastName form;
       email := form_email form;
       phone := orUndefined (form_phone form);
       address := orUndefined (form_address form);
       createdAt := createdAt (heap w l);
       updatedAt := clock (oracle w) (clockReads (oracle w)) |}.
Proof.
  intros Hi Hne F E A.
  assert (P : pendingId (currentEditingId ui) = Some i).
  { rewrite Hi. simpl. apply truthy_true in Hne. now rewrite Hne. }
  rewrite (handleFormSubmit_edit form ui w i P). cbn [fst snd].
  assert (V : fst (validateEmail i l (asUpdate (readForm form)) w) = Ok tt).
  { unfold validateEmail, bind, gets, ret. simpl.
    rewrite E, String.eqb_refl, andb_false_r. reflexivity. }
  rewrite (updateContact_run i _ w l F V).
  destruct (updated_spec l (asUpdate (readForm form)) w) as (Hh & _ & _ & _ & Hs & _).
  destruct (finish_frame l (updated l (asUpdate (readForm form)) w)) as (Fh & _).
  rewrite finish_result, Hs, A, Fh, Hh, store_same. split; reflexivity.
Qed.

(** X26.  After the handler of the search box, the filtered view follows
    the text of the box, and it still does after every mutation that
    returns: through the page, the filter is kept. *)
Theorem handleSearch_then_mutation w (text : string) :
  searchInput w = Some text ->
  ViewFollows text (handleSearch w) /\
  forall w', Mutation (handleSearch w) w' -> ViewFollows text w'.
Proof.
  intros H. assert (Q : pageQuery w = text) by (unfold pageQuery; now rewrite H).
  unfold handleSearch. rewrite Q. split; [apply searchContacts_follows|].
  intros w' M. destruct (mutation_view _ _ M) as [_ F].
  rewrite searchContacts_eq in F. unfold pageQuery in F. simpl in F.
  now rewrite H in F.
Qed.

(** X27.  The handler that clears the search empties the search box and
    shows the whole canonical collection, and so does every mutation that
    returns after it. *)
Theorem handleClearSearch_shows_all w :
  searchInput (handleClearSearch w) = Some EmptyString /\
  contacts (handleClearSearch w) = contacts w /\
  filteredContacts (handleClearSearch w) = contacts w /\
  forall w', Mutation (handleClearSearch w) w' ->
             filteredContacts w' = contacts w'.
Proof.
  unfold handleClearSearch. rewrite searchContacts_eq. simpl.
  split; [reflexivity|]. split; [reflexivity|]. split; [reflexivity|].
  intros w' M. destruct (mutation_view _ _ M) as [_ F]. exact F.
Qed.

(** X28.  The delete dialog is confirmed for a record of the directory and
    the save throws: the exception leaves the handler, so the dialog stays
    open with its id and no message is shown, while the record has left the
    canonical collection. *)
Theorem handleConfirmDelete_save_fails ui w i l (e : Error) :
  deleteContactId ui = Some i ->
  i <> EmptyString ->
  findById i w = Some l ->
  IdsUnique (deref w (contacts w)) ->
  Rejects (storage w) e ->
  handleConfirmDelete ui w = (Throw e, ui, snd (deleteContact i w)) /\
  ~ In l (contacts (snd (deleteContact i w))).
Proof.
  intros Hi Hne F U R.
  destruct (deleteContact_first i w l F U) as (k & E & _ & Hin & _).
  destruct (finish_frame true (spliced k w)) as (_ & _ & Fc & _).
  destruct (finish_throw true (spliced k w) e) as (Ht & _); [apply R|].
  split.
  - unfold handleConfirmDelete. rewrite Hi. simpl.
    apply truthy_true in Hne. rewrite Hne, E.
    destruct (finish true (spliced k w)) as [r w']. simpl in Ht. now subst r.
  - rewrite E, Fc. simpl. rewrite Hin. tauto.
Qed.

(** X29.  The delete dialog is confirmed for a record of the directory (the
    ids are unique) and the store takes the save: the record is gone, the
    page shows "Contact deleted successfully!", the dialog is closed and
    keeps no id. *)
Theorem handleConfirmDelete_deletes ui w i l :
  deleteContactId ui = Some i ->
  i <> EmptyString ->
  findById i w = Some l ->
  IdsUnique (deref w (contacts w)) ->
  Accepts (storage w) ->
  handleConfirmDelete ui w =
    (Ok tt,
     handleCancelDelete (showMessage "Contact deleted successfully!" MsgSuccess ui),
     snd (deleteContact i w)) /\
  findById i (snd (deleteContact i w)) = None /\
  ~ In l (contacts (snd (deleteContact i w))).
Proof.
  intros Hi Hne F U A.
  destruct (deleteContact_first i w l F U) as (k & E & _ & Hin & Hkey).
  destruct (finish_frame true (spliced k w)) as (Fh & _ & Fc & _).
  pose proof (finish_result true (spliced k w)) as R. simpl in R. rewrite A in R.
  split; [|split].
  - unfold handleConfirmDelete. rewrite Hi. simpl.
    apply truthy_true in Hne. rewrite Hne, E.
    destruct (finish true (spliced k w)) as [r w']. simpl in R. now subst r.
  - rewrite E. unfold findById. rewrite Fh, Fc. simpl.
    apply find_all_false. intros x Hx. apply String.eqb_neq. now apply Hkey.
  - rewrite E, Fc. simpl. rewrite Hin. tauto.
Qed.

End Handlers.

(* ================================================================= *)
(** ** More runs *)

Ltac run := vm_compute; reflexivity.

Lemma sample_contacts : contacts (withAdaBob None (browser true)) = [0; 1].
Proof. run. Qed.

Lemma sample_next : next (withAdaBob None (browser true)) = 2.
Proof. run. Qed.

Lemma sample_allocated : Allocated (withAdaBob None (browser true)).
Proof.
  unfold Allocated. rewrite sample_contacts, sample_next.
  intros l [<-|[<-|[]]]; lia.
Qed.

Lemma sample_ids_unique :
  IdsUnique (deref (withAdaBob None (browser true))
                   (contacts (withAdaBob None (browser true)))).
Proof.
  unfold IdsUnique.
  match goal with |- NoDup ?m =>
    assert (E : m = ["k3j9x2m1qloyw3v28"; "k3j9x2m1qloyw3v2b"]) by run;
    rewrite E end.
  repeat constructor; simpl; intuition discriminate.
Qed.

Lemma sample_emails_unique :
  EmailsUnique (deref (withAdaBob None (browser true))
                      (contacts (withAdaBob None (browser true)))).
Proof.
  unfold EmailsUnique.
  match goal with |- NoDup ?m =>
    assert (E : m = ["ada@x.com"; "bob@x.com"]) by run; rewrite E end.
  repeat constructor; simpl; intuition discriminate.
Qed.

Lemma sample_ids_nonempty :
  Forall (fun c => id c <> EmptyString)
         (deref (withAdaBob None (browser true))
                (contacts (withAdaBob None (browser true)))).
Proof.
  unfold deref. rewrite sample_contacts. cbn [map].
  constructor; [vm_compute; discriminate|].
  constructor; [vm_compute; discriminate | constructor].
Qed.

Lemma sample_accepts :
  Accepts (storage (withAda None (browser true))) /\
  Accepts (storage (withAdaBob None (browser true))).
Proof. split; intros cs; run. Qed.

Lemma sample_mutation :
  Mutation (withAda None (browser true)) (withAdaBob None (browser true)).
Proof.
  apply (Mutation_add _ _ bob 1). unfold withAdaBob. apply run_pair. run.
Qed.

Lemma sample_find_ada :
  findById (id (heap (withAdaBob None (browser true)) 0))
           (withAdaBob None (browser true)) = Some 0.
Proof. run. Qed.

Lemma sample_find_bob :
  findById (id (heap (withAdaBob None (browser true)) 1))
           (withAdaBob None (browser true)) = Some 1.
Proof. run. Qed.

(** X2: data as the browser holds it. *)
Lemma toJSON_fromJSON_witness :
  let data := {| data_id := "k3j9x2m1qloyw3v28"; data_firstName := "Ada";
                 data_lastName := "Lovelace"; data_email := "ada@x.com";
                 data_phone := None; data_address := Some "London";
                 data_createdAt := 1700000000001%Z;
                 data_updatedAt := 1700000000002%Z |} in
  data_id data <> EmptyString /\
  toJSON (fst (fromJSON data sampleOracle)) = data.
Proof.
  cbv zeta. split; [discriminate|].
  apply toJSON_fromJSON. discriminate.
Defined.

(** X4: the query " LOVE " and the record of Ada. *)
Lemma matchesTerm_full_name_witness :
  let c := heap (withAda None (browser true)) 0 in
  truthy (trim " LOVE ") = true /\
  matchesTerm (trim (toLowerCase " LOVE ")) c =
  includes (toLowerCase (email c)) (trim (toLowerCase " LOVE ")) ||
  includes (toLowerCase (getFullName c)) (trim (toLowerCase " LOVE ")).
Proof.
  cbv zeta. split; [reflexivity|].
  exact (matchesTerm_full_name " LOVE " _ eq_refl).
Defined.

(** X5: "ADA" and "ada". *)
Lemma searchContacts_any_case_witness :
  let w := withAdaBob None (browser true) in
  toLowerCase "ADA" = toLowerCase "ada" /\
  searchContacts "ADA" w = searchContacts "ada" w.
Proof.
  cbv zeta. split; [reflexivity|].
  exact (searchContacts_any_case "ADA" "ada" _ eq_refl).
Defined.

(** X8: nobody has the id "nobody". *)
Lemma updateContact_unknown_witness :
  let w := withAdaBob None (browser true) in
  (forall l, In l (contacts w) -> id (heap w l) <> "nobody") /\
  updateContact "nobody" (onlyEmail "n@x.com") w = (Throw NotFound, w).
Proof.
  cbv zeta.
  assert (H : forall l, In l (contacts (withAdaBob None (browser true))) ->
                        id (heap (withAdaBob None (browser true)) l) <> "nobody").
  { rewrite sample_contacts. intros l [<-|[<-|[]]]; vm_compute; discriminate. }
  split; [exact H | exact (updateContact_unknown "nobody" _ _ H)].
Defined.

(** X9: Bob's e-mail address is changed to Ada's, in capitals. *)
Lemma updateContact_duplicate_witness :
  let w := withAdaBob None (browser true) in
  let i := id (heap w 1) in
  findById i w = Some 1 /\
  upd_email (onlyEmail "ADA@X.COM") = Some "ADA@X.COM" /\
  "ADA@X.COM" <> EmptyString /\
  In 0 (contacts w) /\
  SameEmail (email (heap w 0)) "ADA@X.COM" /\
  id (heap w 0) <> i /\
  EmailsUnique (deref w (contacts w)) /\
  updateContact i (onlyEmail "ADA@X.COM") w = (Throw DuplicateEmail, w).
Proof.
  cbv zeta.
  assert (H3 : "ADA@X.COM" <> EmptyString) by discriminate.
  assert (H4 : In 0 (contacts (withAdaBob None (browser true))))
    by (rewrite sample_contacts; now left).
  assert (H5 : SameEmail (email (heap (withAdaBob None (browser true)) 0)) "ADA@X.COM")
    by run.
  assert (H6 : id (heap (withAdaBob None (browser true)) 0) <>
               id (heap (withAdaBob None (browser true)) 1))
    by (vm_compute; discriminate).
  split; [exact sample_find_bob|]. split; [reflexivity|]. split; [exact H3|].
  split; [exact H4|]. split; [exact H5|]. split; [exact H6|].
  split; [exact sample_emails_unique|].
  exact (updateContact_duplicate _ "ADA@X.COM" (onlyEmail "ADA@X.COM") _ 1 0
           sample_find_bob eq_refl H3 H4 H5 H6 sample_emails_unique).
Defined.

(** X10: Bob is added to the directory of Ada. *)
Lemma addContact_then_findById_witness :
  let w := withAda None (browser true) in
  let w' := snd (addContact bob w) in
  Allocated w /\
  findByEmail (new_email bob) w = None /\
  Accepts (storage w) /\
  (forall l, In l (contacts w) ->
             id (heap w l) <> id (fst (construct bob (oracle w)))) /\
  fst (addContact bob w) = Ok (next w) /\
  contacts w' = (contacts w ++ [next w])%list /\
  findById (id (heap w' (next w))) w' = Some (next w) /\
  firstName (heap w' (next w)) = new_firstName bob /\
  lastName (heap w' (next w)) = new_lastName bob /\
  email (heap w' (next w)) = new_email bob /\
  phone (heap w' (next w)) = new_phone bob /\
  address (heap w' (next w)) = new_address bob.
Proof.
  cbv zeta.
  assert (E : contacts (withAda None (browser true)) = [0]) by run.
  assert (N : next (withAda None (browser true)) = 1) by run.
  assert (H1 : Allocated (withAda None (browser true))).
  { unfold Allocated. rewrite E, N. intros l [<-|[]]. lia. }
  assert (H2 : findByEmail (new_email bob) (withAda None (browser true)) = None)
    by run.
  assert (H4 : forall l, In l (contacts (withAda None (browser true))) ->
                 id (heap (withAda None (browser true)) l) <>
                 id (fst (construct bob (oracle (withAda None (browser true)))))).
  { rewrite E. intros l [<-|[]]. vm_compute. discriminate. }
  split; [exact H1|]. split; [exact H2|]. split; [exact (proj1 sample_accepts)|].
  split; [exact H4|].
  exact (addContact_then_findById bob _ H1 H2 (proj1 sample_accepts) H4).
Defined.

(** X11: the directory of Ada and Bob. *)
Lemma ids_unique_preserved_witness :
  let w := withAdaBob None (browser true) in
  Allocated w /\
  IdsUnique (deref w (contacts w)) /\
  IdsUnique (deref (snd (deleteContact "nobody" w))
                   (contacts (snd (deleteContact "nobody" w)))).
Proof.
  cbv zeta. split; [exact sample_allocated|]. split; [exact sample_ids_unique|].
  exact (proj1 (proj2 (proj2
           (ids_unique_preserved _ sample_allocated sample_ids_unique))) "nobody").
Defined.

(** X12: the directory of Ada and Bob. *)
Lemma ids_nonempty_preserved_witness :
  let w := withAdaBob None (browser true) in
  Allocated w /\
  Forall (fun c => id c <> EmptyString) (deref w (contacts w)) /\
  Forall (fun c => id c <> EmptyString)
         (deref (snd (addContact al w)) (contacts (snd (addContact al w)))).
Proof.
  cbv zeta. split; [exact sample_allocated|]. split; [exact sample_ids_nonempty|].
  exact (proj1 (ids_nonempty_preserved _ sample_allocated sample_ids_nonempty) al).
Defined.

(** X13: Ada is deleted from the directory of Ada and Bob. *)
Lemma deleteContact_removes_witness :
  let w := withAdaBob None (browser true) in
  let i := id (heap w 0) in
  findById i w = Some 0 /\
  IdsUnique (deref w (contacts w)) /\
  List.length (contacts (snd (deleteContact i w))) + 1 = List.length (contacts w) /\
  (forall x, In x (contacts (snd (deleteContact i w))) <->
             In x (contacts w) /\ x <> 0) /\
  heap (snd (deleteContact i w)) = heap w /\
  findById i (snd (deleteContact i w)) = None /\
  (Accepts (storage w) -> fst (deleteContact i w) = Ok true).
Proof.
  cbv zeta. split; [exact sample_find_ada|]. split; [exact sample_ids_unique|].
  exact (deleteContact_removes _ _ 0 sample_find_ada sample_ids_unique).
Defined.

Lemma offline_find_ada :
  findById (id (heap (offline (withAdaBob None (browser true))) 0))
           (offline (withAdaBob None (browser true))) = Some 0.
Proof. run. Qed.

Lemma offline_ids_unique_of (w : World LocalStorage) :
  IdsUnique (deref w (contacts w)) ->
  IdsUnique (deref (offline w) (contacts (offline w))).
Proof. intros H. exact H. Qed.

Lemma offline_ids_unique :
  IdsUnique (deref (offline (withAdaBob None (browser true)))
                   (contacts (offline (withAdaBob None (browser true))))).
Proof. exact (offline_ids_unique_of _ sample_ids_unique). Qed.

Lemma offline_rejects :
  Rejects (storage (offline (withAdaBob None (browser true))))
          PersistenceWriteFailure.
Proof. intros cs. run. Qed.

(** X14: the browser takes no more writes; Ada is deleted. *)
Lemma deleteContact_stale_view_witness :
  let w := offline (withAdaBob None (browser true)) in
  let i := id (heap w 0) in
  findById i w = Some 0 /\
  IdsUnique (deref w (contacts w)) /\
  Rejects (storage w) PersistenceWriteFailure /\
  In 0 (filteredContacts w) /\
  fst (deleteContact i w) = Throw PersistenceWriteFailure /\
  ~ In 0 (contacts (snd (deleteContact i w))) /\
  In 0 (filteredContacts (snd (deleteContact i w))).
Proof.
  cbv zeta.
  assert (H4 : In 0 (filteredContacts (offline (withAdaBob None (browser true))))).
  { assert (E : filteredContacts (offline (withAdaBob None (browser true))) = [0; 1])
      by run.
    rewrite E. now left. }
  split; [exact offline_find_ada|]. split; [exact offline_ids_unique|].
  split; [exact offline_rejects|]. split; [exact H4|].
  exact (deleteContact_stale_view _ _ 0 _ offline_find_ada offline_ids_unique
           offline_rejects H4).
Defined.

(** X15: Bob is added to the directory of Ada. *)
Lemma mutation_saves_once_witness :
  let w := withAda None (browser true) in
  let w' := withAdaBob None (browser true) in
  Mutation w w' /\
  fst (save (deref w' (contacts w')) (storage w)) = Ok tt /\
  storage w' = snd (save (deref w' (contacts w')) (storage w)) /\
  portCalls w' = CallSave (deref w' (contacts w')) :: portCalls w.
Proof.
  cbv zeta. split; [exact sample_mutation|].
  exact (mutation_saves_once _ _ sample_mutation).
Defined.



(** X19: Bob is added to the directory of Ada. *)
Lemma mutation_stores_directory_witness :
  let w := withAda None (browser true) in
  let w' := withAdaBob None (browser true) in
  Mutation w w' /\
  item (storage w') = Stored (map toJSON (deref w' (contacts w'))).
Proof.
  cbv zeta. split; [exact sample_mutation|].
  exact (mutation_stores_directory _ _ sample_mutation).
Defined.


(** X23: the form for Al is submitted on the page of Ada's directory. *)
Lemma handleFormSubmit_duplicate_witness :
  let w := withAda None (browser true) in
  pendingId (currentEditingId idle) = None /\
  In 0 (contacts w) /\
  SameEmail (email (heap w 0)) (form_email alForm) /\
  handleFormSubmit alForm idle w =
  (showMessage "A contact with this email already exists" MsgError idle, w).
Proof.
  cbv zeta.
  assert (H2 : In 0 (contacts (withAda None (browser true))))
    by (vm_compute; now left).
  assert (H3 : SameEmail (email (heap (withAda None (browser true)) 0))
                         (form_email alForm)) by run.
  split; [reflexivity|]. split; [exact H2|]. split; [exact H3|].
  exact (handleFormSubmit_duplicate alForm idle _ 0 eq_refl H2 H3).
Defined.

(** X24: the form for Grace, the address left blank. *)
Lemma handleFormSubmit_adds_witness :
  let w := withAdaBob None (browser true) in
  pendingId (currentEditingId idle) = None /\
  findByEmail (form_email graceForm) w = None /\
  Accepts (storage w) /\
  fst (handleFormSubmit graceForm idle w) =
    resetForm (showMessage "Contact added successfully!" MsgSuccess idle) /\
  contacts (snd (handleFormSubmit graceForm idle w)) = (contacts w ++ [next w])%list /\
  email (heap (snd (handleFormSubmit graceForm idle w)) (next w))
    = form_email graceForm /\
  phone (heap (snd (handleFormSubmit graceForm idle w)) (next w))
    = orUndefined (form_phone graceForm) /\
  address (heap (snd (handleFormSubmit graceForm idle w)) (next w))
    = orUndefined (form_address graceForm) /\
  phone (heap (snd (handleFormSubmit graceForm idle w)) (next w)) <> Some EmptyString /\
  address (heap (snd (handleFormSubmit graceForm idle w)) (next w)) <> Some EmptyString.
Proof.
  cbv zeta.
  assert (H2 : findByEmail (form_email graceForm) (withAdaBob None (browser true))
               = None) by run.
  split; [reflexivity|]. split; [exact H2|]. split; [exact (proj2 sample_accepts)|].
  exact (handleFormSubmit_adds graceForm idle _ eq_refl H2 (proj2 sample_accepts)).
Defined.

(** X25: Bob is edited, and the form is submitted with his phone number
    deleted and his e-mail address as it was. *)
Lemma handleFormSubmit_edit_same_email_witness :
  let w := withAdaBob None (browser true) in
  let i := id (heap w 1) in
  let ui := handleEditContact i idle w in
  currentEditingId ui = Some i /\
  i <> EmptyString /\
  findById i w = Some 1 /\
  form_email bobForm = email (heap w 1) /\
  Accepts (storage w) /\
  fst (handleFormSubmit bobForm ui w) =
    resetForm (showMessage "Contact updated successfully!" MsgSuccess ui) /\
  heap (snd (handleFormSubmit bobForm ui w)) 1 =
    {| id := id (heap w 1);
       firstName := form_firstName bobForm;
       lastName := form_lastName bobForm;
       email := form_email bobForm;
       phone := orUndefined (form_phone bobForm);
       address := orUndefined (form_address bobForm);
       createdAt := createdAt (heap w 1);
       updatedAt := clock (oracle w) (clockReads (oracle w)) |}.
Proof.
  cbv zeta.
  assert (H1 : currentEditingId
                 (handleEditContact (id (heap (withAdaBob None (browser true)) 1))
                    idle (withAdaBob None (browser true)))
               = Some (id (heap (withAdaBob None (browser true)) 1))) by run.
  assert (H2 : id (heap (withAdaBob None (browser true)) 1) <> EmptyString)
    by (vm_compute; discriminate).
  assert (H4 : form_email bobForm = email (heap (withAdaBob None (browser true)) 1))
    by run.
  split; [exact H1|]. split; [exact H2|]. split; [exact sample_find_bob|].
  split; [exact H4|]. split; [exact (proj2 sample_accepts)|].
  exact (handleFormSubmit_edit_same_email bobForm _ _ _ 1 H1 H2 sample_find_bob H4
           (proj2 sample_accepts)).
Defined.

(** X26: the search box holds "ada". *)
Lemma handleSearch_then_mutation_witness :
  let w := withAdaBob (Some "ada") (browser true) in
  searchInput w = Some "ada" /\
  ViewFollows "ada" (handleSearch w) /\
  forall w', Mutation (handleSearch w) w' -> ViewFollows "ada" w'.
Proof.
  cbv zeta.
  assert (H : searchInput (withAdaBob (Some "ada") (browser true)) = Some "ada")
    by run.
  split; [exact H|].
  exact (handleSearch_then_mutation _ "ada" H).
Defined.

(** X28: the browser takes no more writes; the dialog for Ada is confirmed. *)
Lemma handleConfirmDelete_save_fails_witness :
  let w := offline (withAdaBob None (browser true)) in
  let i := id (heap w 0) in
  let ui := handleDeleteContact i idle in
  deleteContactId ui = Some i /\
  i <> EmptyString /\
  findById i w = Some 0 /\
  IdsUnique (deref w (contacts w)) /\
  Rejects (storage w) PersistenceWriteFailure /\
  handleConfirmDelete ui w =
    (Throw PersistenceWriteFailure, ui, snd (deleteContact i w)) /\
  ~ In 0 (contacts (snd (deleteContact i w))).
Proof.
  cbv zeta.
  assert (H2 : id (heap (offline (withAdaBob None (browser true))) 0) <> EmptyString)
    by (vm_compute; discriminate).
  split; [reflexivity|]. split; [exact H2|]. split; [exact offline_find_ada|].
  split; [exact offline_ids_unique|]. split; [exact offline_rejects|].
  exact (handleConfirmDelete_save_fails
           (handleDeleteContact
              (id (heap (offline (withAdaBob None (browser true))) 0)) idle)
           _ (id (heap (offline (withAdaBob None (browser true))) 0)) 0 _
           eq_refl H2 offline_find_ada offline_ids_unique offline_rejects).
Defined.

(** X29: the dialog for Ada is confirmed. *)
Lemma handleConfirmDelete_deletes_witness :
  let w := withAdaBob None (browser true) in
  let i := id (heap w 0) in
  let ui := handleDeleteContact i idle in
  deleteContactId ui = Some i /\
  i <> EmptyString /\
  findById i w = Some 0 /\
  IdsUnique (deref w (contacts w)) /\
  Accepts (storage w) /\
  handleConfirmDelete ui w =
    (Ok tt,
     handleCancelDelete (showMessage "Contact deleted successfully!" MsgSuccess ui),
     snd (deleteContact i w)) /\
  findById i (snd (deleteContact i w)) = None /\
  ~ In 0 (contacts (snd (deleteContact i w))).
Proof.
  cbv zeta.
  assert (H2 : id (heap (withAdaBob None (browser true)) 0) <> EmptyString)
    by (vm_compute; discriminate).
  split; [reflexivity|]. split; [exact H2|]. split; [exact sample_find_ada|].
  split; [exact sample_ids_unique|]. split; [exact (proj2 sample_accepts)|].
  exact (handleConfirmDelete_deletes
           (handleDeleteContact (id (heap (withAdaBob None (browser true)) 0)) idle)
           _ (id (heap (withAdaBob None (browser true)) 0)) 0
           eq_refl H2 sample_find_ada sample_ids_unique (proj2 sample_accepts)).
Defined.

(** X30: Bob's e-mail address is changed in the directory of Ada and Bob. *)
Lemma emails_unique_preserved_witness :
  let w := withAdaBob None (browser true) in
  let i := id (heap w 1) in
  Allocated w /\
  EmailsUnique (deref w (contacts w)) /\
  EmailsUnique (deref (snd (updateContact i (onlyEmail "robert@x.com") w))
                      (contacts (snd (updateContact i (onlyEmail "robert@x.com") w)))).
Proof.
  cbv zeta. split; [exact sample_allocated|]. split; [exact sample_emails_unique|].
  assert (H : upd_email (onlyEmail "robert@x.com") <> Some EmptyString)
    by discriminate.
  exact (proj1 (proj2 (emails_unique_preserved _ sample_allocated
                         sample_emails_unique))
           _ (onlyEmail "robert@x.com") sample_ids_unique H).
Defined.

(** The scenario of the specification: Ada is added; Al, with Ada's e-mail
    address in capitals, is refused; a search for "turing" finds nobody and
    a search for "ada" finds Ada; Ada is deleted. *)
Example scenario :
  let w0 := fresh None (browser true) in
  let w1 := withAda None (browser true) in
  let w2 := snd (deleteContact (id (heap w1 0)) w1) in
  fst (addContact ada w0) = Ok 0 /\
  fst (getContactCount w1) = Ok 1 /\
  addContact al w1 = (Throw DuplicateEmail, w1) /\
  fst (searchContacts "turing" w1) = Ok [] /\
  fst (searchContacts "ada" w1) = Ok [0] /\
  fst (deleteContact (id (heap w1 0)) w1) = Ok true /\
  fst (getContactCount w2) = Ok 0 /\
  filteredContacts w2 = [].
Proof.
  cbv zeta.
  split; [run|]. split; [run|].
  split; [apply (addContact_found al _ 0); run|].
  split; [run|]. split; [run|]. split; [run|]. split; run.
Qed.

Example toString36_examples :
  toString36 0 = "0" /\ toString36 35 = "z" /\ toString36 36 = "10" /\
  toString36 1700000000000 = "loyw3v28".
Proof. split; [run|]. split; [run|]. split; run. Qed.
